(** * btrfs-list: the root index and the path stitcher of [btrfs-list.c]

    A shallow embedding of [btrfs-list.c] (the subvolume listing of
    btrfs-progs) and the properties of its root index ([tree_insert],
    [tree_search]), of the name resolver ([lookup_ino_path]), of the path
    stitcher ([resolve_root]) and of the driver ([list_subvols]).

    Conventions.
    - A [u64] is a [Z]; the only arithmetic the file does on one is the
      guarded increment of [min_objectid], which cannot wrap.
    - A NUL-terminated C string is a [string] (the bytes before the NUL).
      In the functional model a [char *] is the string it points to; the
      module [Mem] models [resolve_root] a second time with addresses and
      a heap, and the two are related at the end.
    - A [struct rb_node *] is a position in the tree, [rb_ptr]: the node it
      points to together with the chain of ancestors that the parent
      pointers give; a pointer that may be [NULL] is an [option].
    - Every [while] loop is a [Fixpoint] over a fuel argument; running out
      of fuel is the outcome [Timeout], and the theorems say how much fuel
      is enough.
    - The two ioctls and [rb_insert_color] are parameters of the program.
    - [malloc] is taken to succeed (the [exit(1)] paths after a failed
      allocation are not modelled), and only the lines [resolve_root]
      prints are kept of the output. *)

From Stdlib Require Import ZArith List String Ascii Bool Lia Sorted Permutation.
Import ListNotations.
Local Open Scope Z_scope.

Set Implicit Arguments.

(** ** Outcomes of the C code *)

Inductive result (A : Type) : Type :=
| Ok (a : A)            (* control reaches the end of the modelled code *)
| Exit (status : Z)     (* the process called exit(status) *)
| Segv                  (* a pointer that holds no string was read *)
| Timeout.              (* the fuel of a loop ran out *)

Arguments Ok {A} a.
Arguments Exit {A} status.
Arguments Segv {A}.
Arguments Timeout {A}.

Definition bind {A B : Type} (r : result A) (k : A -> result B) : result B :=
  match r with
  | Ok a => k a
  | Exit s => Exit s
  | Segv => Segv
  | Timeout => Timeout
  end.

Notation "'let*' x ':=' r 'in' k" := (bind r (fun x => k))
  (at level 10, x pattern, r at level 100, k at level 200).

(** ** Data model *)

(** [(u64)-1] *)
Definition u64_max : Z := 2 ^ 64 - 1.

Section Tree.

(** What a non-NULL [char *] is taken to be: the string it points to in
    the functional model of the program, the address of a buffer in the
    model of its memory ([Mem], below). *)
Context {P : Type}.

(** [struct root_info]; [path] is [NULL] ([None]) until [lookup_ino_path]
    fills it in.  The embedded [rb_node] is the tree position, below. *)
Record root_info_of : Type := mk_root_info {
  root_id : Z;            (* this root's id *)
  ref_tree : Z;           (* the id of the root that references this one *)
  dir_id : Z;             (* the dir id we're in from ref_tree *)
  path : option P;        (* path from the subvol we live in to this root *)
  name : string           (* the name of this root in its directory *)
}.

Definition set_path (ri : root_info_of) (p : P) : root_info_of :=
  mk_root_info (root_id ri) (ref_tree ri) (dir_id ri) (Some p) (name ri).

(** The composite key of a record. *)
Definition key_of (ri : root_info_of) : Z * Z := (root_id ri, ref_tree ri).

(** [comp_entry]: 1 when the entry is above the key, -1 when below. *)
Definition comp_entry (entry : root_info_of) (root_id' ref_tree' : Z) : Z :=
  if root_id entry >? root_id' then 1
  else if root_id entry <? root_id' then -1
  else if ref_tree entry >? ref_tree' then 1
  else if ref_tree entry <? ref_tree' then -1
  else 0.

(** ** The red-black tree of [struct rb_root] *)

Inductive rb_color : Type := RB_RED | RB_BLACK.

Inductive rb_tree_of : Type :=
| rb_nil
| rb_node (c : rb_color) (rb_left : rb_tree_of) (entry : root_info_of)
          (rb_right : rb_tree_of).

(** [root_lookup_init] *)
Definition root_lookup_init : rb_tree_of := rb_nil.

(** One parent pointer: the parent's own fields and which of its links
    leads down to us. *)
Inductive rb_step_of : Type :=
| from_left (c : rb_color) (e : root_info_of) (r : rb_tree_of)
| from_right (c : rb_color) (l : rb_tree_of) (e : root_info_of).

(** The ancestors of a node, the parent first. *)
Definition rb_path_of : Type := list rb_step_of.

(** A non-NULL [struct rb_node *]. *)
Record rb_ptr_of : Type := mk_ptr {
  ptr_color : rb_color;
  ptr_left : rb_tree_of;
  ptr_entry : root_info_of;    (* rb_entry(n, struct root_info, rb_node) *)
  ptr_right : rb_tree_of;
  ptr_up : rb_path_of
}.

Definition ptr_node (n : rb_ptr_of) : rb_tree_of :=
  rb_node (ptr_color n) (ptr_left n) (ptr_entry n) (ptr_right n).

(** The tree a subtree sits in, given the subtree's ancestors. *)
Fixpoint plug (t : rb_tree_of) (up : rb_path_of) : rb_tree_of :=
  match up with
  | [] => t
  | from_left c e r :: up' => plug (rb_node c t e r) up'
  | from_right c l e :: up' => plug (rb_node c l e t) up'
  end.

(** The root of the tree a pointer points into. *)
Definition ptr_root (n : rb_ptr_of) : rb_tree_of := plug (ptr_node n) (ptr_up n).

(** Writing through [rb_entry(n, ...)]: the node's record is replaced in
    place. *)
Definition ptr_store (n : rb_ptr_of) (e : root_info_of) : rb_ptr_of :=
  mk_ptr (ptr_color n) (ptr_left n) e (ptr_right n) (ptr_up n).

(** Number of nodes. *)
Fixpoint rb_count (t : rb_tree_of) : nat :=
  match t with
  | rb_nil => O
  | rb_node _ l _ r => S (rb_count l + rb_count r)
  end.

(** The records of a tree from its leftmost node to its rightmost. *)
Fixpoint elements (t : rb_tree_of) : list root_info_of :=
  match t with
  | rb_nil => []
  | rb_node _ l e r => elements l ++ e :: elements r
  end.

(** *** Tree navigation

    The rbtree library of the repository ([rb_first], [rb_last],
    [rb_next], [rb_prev], [rb_link_node], [rb_insert_color]) is not among
    the sources.  The traversal functions are written here as the usual
    walks over child and parent pointers. *)

(** Modelled from the spec: the descent along [rb_left] links that
    [rb_first] and [rb_next] make ("forward ordered traversal"); [None]
    when [t] is empty. *)
Fixpoint leftmost (t : rb_tree_of) (up : rb_path_of) : option rb_ptr_of :=
  match t with
  | rb_nil => None
  | rb_node c l e r =>
      match leftmost l (from_left c e r :: up) with
      | Some n => Some n
      | None => Some (mk_ptr c l e r up)
      end
  end.

(** Modelled from the spec: the descent along [rb_right] links that
    [rb_last] and [rb_prev] make ("backward ordered traversal"). *)
Fixpoint rightmost (t : rb_tree_of) (up : rb_path_of) : option rb_ptr_of :=
  match t with
  | rb_nil => None
  | rb_node c l e r =>
      match rightmost r (from_right c l e :: up) with
      | Some n => Some n
      | None => Some (mk_ptr c l e r up)
      end
  end.

(** Modelled from the spec: [rb_first], the leftmost node of the index. *)
Definition rb_first (root : rb_tree_of) : option rb_ptr_of := leftmost root [].

(** Modelled from the spec: [rb_last], the rightmost node of the index. *)
Definition rb_last (root : rb_tree_of) : option rb_ptr_of := rightmost root [].

(** Modelled from the spec: the upward part of [rb_next]; go up while we
    are a right child, and return the parent we stop at. *)
Fixpoint climb_next (t : rb_tree_of) (up : rb_path_of) : option rb_ptr_of :=
  match up with
  | [] => None
  | from_left c e r :: up' => Some (mk_ptr c t e r up')
  | from_right c l e :: up' => climb_next (rb_node c l e t) up'
  end.

(** Modelled from the spec: the upward part of [rb_prev]; go up while we
    are a left child, and return the parent we stop at. *)
Fixpoint climb_prev (t : rb_tree_of) (up : rb_path_of) : option rb_ptr_of :=
  match up with
  | [] => None
  | from_right c l e :: up' => Some (mk_ptr c l e t up')
  | from_left c e r :: up' => climb_prev (rb_node c t e r) up'
  end.

(** Modelled from the spec: [rb_next], the in-order successor. *)
Definition rb_next (n : rb_ptr_of) : option rb_ptr_of :=
  match leftmost (ptr_right n)
          (from_right (ptr_color n) (ptr_left n) (ptr_entry n) :: ptr_up n) with
  | Some m => Some m
  | None => climb_next (ptr_node n) (ptr_up n)
  end.

(** Modelled from the spec: [rb_prev], the in-order predecessor. *)
Definition rb_prev (n : rb_ptr_of) : option rb_ptr_of :=
  match rightmost (ptr_left n)
          (from_left (ptr_color n) (ptr_entry n) (ptr_right n) :: ptr_up n) with
  | Some m => Some m
  | None => climb_prev (ptr_node n) (ptr_up n)
  end.

(** Modelled from the spec: [rb_link_node(node, parent, p)]; the new node
    is red, has no children and hangs from the link [p], which the
    ancestor chain [up] identifies. *)
Definition rb_link_node (node : root_info_of) (up : rb_path_of) : rb_ptr_of :=
  mk_ptr RB_RED rb_nil node rb_nil up.

(** ** The index: [tree_insert], [tree_search], [add_root] *)

(** The descent of [tree_insert]: either the node that already carries the
    key, or the empty link where the new node goes.  Mind the directions:
    an entry BELOW the key ([comp < 0]) sends the walk to [rb_left]. *)
Fixpoint tree_insert_walk (p : rb_tree_of) (up : rb_path_of) (root_id' ref_tree' : Z)
  : rb_ptr_of + rb_path_of :=
  match p with
  | rb_nil => inr up
  | rb_node c l entry r =>
      let comp := comp_entry entry root_id' ref_tree' in
      if comp <? 0 then
        tree_insert_walk l (from_left c entry r :: up) root_id' ref_tree'
      else if comp >? 0 then
        tree_insert_walk r (from_right c l entry :: up) root_id' ref_tree'
      else inl (mk_ptr c l entry r up)
  end.

(** The descent of [tree_search] on [root_id] alone. *)
Fixpoint tree_search_walk (n : rb_tree_of) (up : rb_path_of) (root_id' : Z)
  : option rb_ptr_of :=
  match n with
  | rb_nil => None
  | rb_node c l entry r =>
      if root_id entry <? root_id' then
        tree_search_walk l (from_left c entry r :: up) root_id'
      else if root_id entry >? root_id' then
        tree_search_walk r (from_right c l entry :: up) root_id'
      else Some (mk_ptr c l entry r up)
  end.

(** The inner [while (1)] of [tree_search]: step to [rb_prev] as long as
    the previous node carries the same [root_id]. *)
Fixpoint tree_search_back (fuel : nat) (n : rb_ptr_of) (root_id' : Z)
  : result root_info_of :=
  match fuel with
  | O => Timeout
  | S fuel' =>
      match rb_prev n with
      | None => Ok (ptr_entry n)
      | Some prev_n =>
          if negb (root_id (ptr_entry prev_n) =? root_id')
          then Ok (ptr_entry n)
          else tree_search_back fuel' prev_n root_id'
      end
  end.

(** [tree_search]: [Ok None] is the [NULL] result. *)
Definition tree_search (fuel : nat) (root : rb_tree_of) (root_id' : Z)
  : result (option root_info_of) :=
  match tree_search_walk root [] root_id' with
  | None => Ok None
  | Some n => let* e := tree_search_back fuel n root_id' in Ok (Some e)
  end.

End Tree.

Arguments root_info_of : clear implicits.
Arguments rb_tree_of : clear implicits.
Arguments rb_step_of : clear implicits.
Arguments rb_path_of : clear implicits.
Arguments rb_ptr_of : clear implicits.

(** The functional model: a [char *] is the string it points to. *)
Abbreviation root_info := (root_info_of string).
Abbreviation rb_tree := (rb_tree_of string).
Abbreviation rb_step := (rb_step_of string).
Abbreviation rb_path := (rb_path_of string).
Abbreviation rb_ptr := (rb_ptr_of string).

(** ** Strings of the C library *)

(** The NUL byte. *)
Definition nul : ascii := Ascii.zero.

(** [strncpy(dst, src, n)] into a zeroed buffer of [n + 1] bytes, read back
    as a C string: at most [n] bytes of [src], up to its first NUL. *)
Fixpoint strncpy (src : string) (n : nat) : string :=
  match n, src with
  | S n', String c rest =>
      if Ascii.eqb c nul then EmptyString else String c (strncpy rest n')
  | _, _ => EmptyString
  end.

(** ** The kernel interface *)

(** [struct btrfs_ioctl_search_key] *)
Record btrfs_ioctl_search_key : Type := mk_search_key {
  tree_id : Z;
  min_objectid : Z;
  max_objectid : Z;
  min_offset : Z;
  max_offset : Z;
  min_transid : Z;
  max_transid : Z;
  min_type : Z;
  max_type : Z;
  nr_items : Z
}.

(** One item of a search result: the fields of the
    [btrfs_ioctl_search_header] that the loop reads, and the
    [btrfs_root_ref] with the name bytes that follow it. *)
Record search_item : Type := mk_search_item {
  sh_objectid : Z;
  sh_type : Z;
  sh_offset : Z;
  ref_dirid : Z;           (* btrfs_stack_root_ref_dirid(ref) *)
  ref_name_len : nat;      (* btrfs_stack_root_ref_name_len(ref), a u16 *)
  ref_name : string        (* the bytes at (char * )(ref + 1) *)
}.

(** Modelled from the spec: [ctree.h] is not among the sources; this is
    the key type of the "subvolume backreference" records the search is
    scoped to.  No theorem depends on the number. *)
Definition BTRFS_ROOT_BACKREF_KEY : Z := 144.

(** The three assignments at the end of the [for] body. *)
Definition record_mins (sk : btrfs_ioctl_search_key) (sh : search_item)
  : btrfs_ioctl_search_key :=
  mk_search_key (tree_id sk) (sh_objectid sh) (max_objectid sk)
    (sh_offset sh) (max_offset sk) (min_transid sk) (max_transid sk)
    (sh_type sh) (max_type sk) (nr_items sk).

Definition set_nr_items (sk : btrfs_ioctl_search_key) (n : Z)
  : btrfs_ioctl_search_key :=
  mk_search_key (tree_id sk) (min_objectid sk) (max_objectid sk)
    (min_offset sk) (max_offset sk) (min_transid sk) (max_transid sk)
    (min_type sk) (max_type sk) n.

(** [sk->min_objectid++] *)
Definition step_objectid (sk : btrfs_ioctl_search_key)
  : btrfs_ioctl_search_key :=
  mk_search_key (tree_id sk) (min_objectid sk + 1) (max_objectid sk)
    (min_offset sk) (max_offset sk) (min_transid sk) (max_transid sk)
    (min_type sk) (max_type sk) (nr_items sk).

(** The search key [list_subvols] starts from: [memset] to zero, then the
    assignments before the loop. *)
Definition initial_search_key : btrfs_ioctl_search_key :=
  mk_search_key 1 0 u64_max 0 u64_max 0 u64_max
    BTRFS_ROOT_BACKREF_KEY BTRFS_ROOT_BACKREF_KEY 4096.

(** One line of output:
    [printf("ID %llu top level %llu path %s\n", ...)]. *)
Record report : Type := mk_report {
  report_id : Z;
  report_top : Z;
  report_path : string
}.

(** The record [add_root] allocates: [memset] to zero, the four
    assignments and the [strncpy] of the name. *)
Definition new_root_info (root_id' ref_tree' dir_id' : Z) (name' : string)
           (name_len : nat) : root_info :=
  mk_root_info root_id' ref_tree' dir_id' None (strncpy name' name_len).

(** ** The program *)

Section Program.

(** [rb_insert_color(node, root)]: the rebalancing after a node has been
    linked in; it returns the tree with its new root.  The library that
    defines it is not among the sources, so the program takes it as a
    parameter. *)
Variable rb_insert_color : rb_ptr -> rb_tree.

(** [ioctl(fd, BTRFS_IOC_TREE_SEARCH, &args)]: from the search key to
    the return value and the items of [args.buf]; the kernel's
    [nr_items] is the number of these items. *)
Variable ioc_tree_search : btrfs_ioctl_search_key -> Z * list search_item.

(** [ioctl(fd, BTRFS_IOC_INO_LOOKUP, &args)]: from [args.treeid] and
    [args.objectid] to the return value and the string in [args.name]. *)
Variable ioc_ino_lookup : Z -> Z -> Z * string.

(** [tree_insert]: the existing node when the key is there already (the
    tree is left as it is), [None] when the node has been linked in. *)
Definition tree_insert (root : rb_tree) (root_id' ref_tree' : Z)
           (node : root_info) : option rb_ptr * rb_tree :=
  match tree_insert_walk root [] root_id' ref_tree' with
  | inl parent => (Some parent, root)
  | inr p => (None, rb_insert_color (rb_link_node node p))
  end.

(** [add_root] *)
Definition add_root (root_lookup : rb_tree) (root_id' ref_tree' dir_id' : Z)
           (name' : string) (name_len : nat) : result rb_tree :=
  let ri := new_root_info root_id' ref_tree' dir_id' name' name_len in
  match tree_insert root_lookup root_id' ref_tree' ri with
  | (Some _, _) => Exit 1     (* "failed to insert tree" *)
  | (None, root') => Ok root'
  end.

(** The [while (1)] of [resolve_root]; [full_path] is [None] while the C
    pointer is [NULL]. *)
Fixpoint resolve_root_loop (fuel : nat) (rl : rb_tree) (found : root_info)
         (full_path : option string) : result (Z * string) :=
  match fuel with
  | O => Timeout
  | S fuel' =>
      match path found with
      | None => Segv                      (* strlen(found->path) *)
      | Some found_path =>
          let full_path' :=
            match full_path with
            | Some fp => (found_path ++ "/" ++ fp)%string
            | None => found_path          (* strdup(found->path) *)
            end in
          let next := ref_tree found in
          if next =? root_id found then Ok (next, full_path')
          else
            let* r := tree_search fuel' rl next in
            match r with
            | None => Ok (next, full_path')
            | Some found' =>
                resolve_root_loop fuel' rl found' (Some full_path')
            end
      end
  end.

(** [resolve_root]: the line it prints. *)
Definition resolve_root (fuel : nat) (rl : rb_tree) (ri : root_info)
  : result report :=
  let* r := resolve_root_loop fuel rl ri None in
  Ok (mk_report (root_id ri) (fst r) (snd r)).

(** [lookup_ino_path]: the return value and the record as it is left. *)
Definition lookup_ino_path (ri : root_info) : Z * root_info :=
  match path ri with
  | Some _ => (0, ri)
  | None =>
      let (ret, args_name) := ioc_ino_lookup (ref_tree ri) (dir_id ri) in
      if negb (ret =? 0) then (ret, ri)
      else
        match args_name with
        | String _ _ => (0, set_path ri (args_name ++ name ri)%string)
        | EmptyString => (0, set_path ri (name ri))
        end
  end.

(** The [for] loop over the items of one batch. *)
Fixpoint scan_items (root : rb_tree) (sk : btrfs_ioctl_search_key)
         (items : list search_item)
  : result (rb_tree * btrfs_ioctl_search_key) :=
  match items with
  | [] => Ok (root, sk)
  | sh :: rest =>
      let* root' := add_root root (sh_objectid sh) (sh_offset sh)
                      (ref_dirid sh) (ref_name sh) (ref_name_len sh) in
      scan_items root' (record_mins sk sh) rest
  end.

(** The first [while (1)] of [list_subvols].  [inl ret]: the function
    returns [ret]; [inr (ret, root)]: the loop is left with the index
    [root], [ret] being the value of the last ioctl. *)
Fixpoint build_loop (fuel : nat) (root : rb_tree)
         (sk : btrfs_ioctl_search_key) : result (Z + Z * rb_tree) :=
  match fuel with
  | O => Timeout
  | S fuel' =>
      let (ret, items) := ioc_tree_search sk in
      if ret <? 0 then Ok (inl ret)
      else
        match items with
        | [] => Ok (inr (ret, root))          (* sk->nr_items == 0 *)
        | _ :: _ =>
            let* st := scan_items root sk items in
            let sk' := set_nr_items (snd st) 4096 in
            if min_objectid sk' <? u64_max
            then build_loop fuel' (fst st) (step_objectid sk')
            else Ok (inr (ret, fst st))
        end
  end.

(** The loop from [rb_first] along [rb_next].  [(Some ret, root)]: the
    function returns [ret], the index being [root] at that moment;
    [(None, root)]: the loop ran to its end. *)
Fixpoint fill_paths (fuel : nat) (root : rb_tree) (n : option rb_ptr)
  : result (option Z * rb_tree) :=
  match n with
  | None => Ok (None, root)
  | Some n =>
      match fuel with
      | O => Timeout
      | S fuel' =>
          let (ret, entry') := lookup_ino_path (ptr_entry n) in
          let n' := ptr_store n entry' in
          if ret <? 0 then Ok (Some ret, ptr_root n')
          else fill_paths fuel' (ptr_root n') (rb_next n')
      end
  end.

(** The loop from [rb_last] along [rb_prev]: the lines printed. *)
Fixpoint stitch (fuel : nat) (rl : rb_tree) (n : option rb_ptr)
  : result (list report) :=
  match n with
  | None => Ok []
  | Some n =>
      match fuel with
      | O => Timeout
      | S fuel' =>
          let* line := resolve_root fuel' rl (ptr_entry n) in
          let* rest := stitch fuel' rl (rb_prev n) in
          Ok (line :: rest)
      end
  end.

(** [list_subvols]: the return value and the lines printed. *)
Definition list_subvols (fuel : nat) : result (Z * list report) :=
  let* b := build_loop fuel root_lookup_init initial_search_key in
  match b with
  | inl ret => Ok (ret, [])
  | inr (ret, root) =>
      let* f := fill_paths fuel root (rb_first root) in
      match f with
      | (Some ret', _) => Ok (ret', [])
      | (None, root') =>
          let* out := stitch fuel root' (rb_last root') in
          Ok (ret, out)
      end
  end.

End Program.

(** ** A rebalancing function and an enumerator to run the program with *)

Definition rb_set_color (c : rb_color) (t : rb_tree) : rb_tree :=
  match t with
  | rb_nil => rb_nil
  | rb_node _ l e r => rb_node c l e r
  end.

Definition rb_is_red (t : rb_tree) : bool :=
  match t with
  | rb_node RB_RED _ _ _ => true
  | _ => false
  end.

(** Modelled from the spec: the loop of [rb_insert_color] ("a balanced tree
    structure"), which is not among the sources, as the Linux rbtree
    library has it.  The node is [rb_node c l e r] and [up] are its
    ancestors.  While the parent is red: a red uncle is recoloured with the
    parent and the walk goes on from the grandparent; otherwise one or two
    rotations end it.  At the end the root is made black.  (A red parent
    that is the root does not occur in a tree this function maintains; the
    root is then just made black.) *)
Fixpoint insert_fixup (c : rb_color) (l : rb_tree) (e : root_info)
         (r : rb_tree) (up : rb_path) {struct up} : rb_tree :=
  let node := rb_node c l e r in
  match up with
  | [] => rb_node RB_BLACK l e r
  | from_left RB_BLACK pe pr :: up1 =>
      rb_set_color RB_BLACK (plug (rb_node RB_BLACK node pe pr) up1)
  | from_right RB_BLACK pl pe :: up1 =>
      rb_set_color RB_BLACK (plug (rb_node RB_BLACK pl pe node) up1)
  | from_left RB_RED pe pr :: [] => rb_node RB_BLACK node pe pr
  | from_right RB_RED pl pe :: [] => rb_node RB_BLACK pl pe node
  | from_left RB_RED pe pr :: from_left _ ge uncle :: up2 =>
      if rb_is_red uncle then
        insert_fixup RB_RED (rb_node RB_BLACK node pe pr) ge
          (rb_set_color RB_BLACK uncle) up2
      else
        rb_set_color RB_BLACK
          (plug (rb_node RB_BLACK node pe (rb_node RB_RED pr ge uncle)) up2)
  | from_right RB_RED pl pe :: from_left _ ge uncle :: up2 =>
      if rb_is_red uncle then
        insert_fixup RB_RED (rb_node RB_BLACK pl pe node) ge
          (rb_set_color RB_BLACK uncle) up2
      else
        rb_set_color RB_BLACK
          (plug (rb_node RB_BLACK (rb_node RB_RED pl pe l) e
                   (rb_node RB_RED r ge uncle)) up2)
  | from_right RB_RED pl pe :: from_right _ uncle ge :: up2 =>
      if rb_is_red uncle then
        insert_fixup RB_RED (rb_set_color RB_BLACK uncle) ge
          (rb_node RB_BLACK pl pe node) up2
      else
        rb_set_color RB_BLACK
          (plug (rb_node RB_BLACK (rb_node RB_RED uncle ge pl) pe node) up2)
  | from_left RB_RED pe pr :: from_right _ uncle ge :: up2 =>
      if rb_is_red uncle then
        insert_fixup RB_RED (rb_set_color RB_BLACK uncle) ge
          (rb_node RB_BLACK node pe pr) up2
      else
        rb_set_color RB_BLACK
          (plug (rb_node RB_BLACK (rb_node RB_RED uncle ge l) e
                   (rb_node RB_RED r pe pr)) up2)
  end.

(** Modelled from the spec: [rb_insert_color] of the rbtree library, see
    [insert_fixup]. *)
Definition linux_rb_insert_color (node : rb_ptr) : rb_tree :=
  insert_fixup (ptr_color node) (ptr_left node) (ptr_entry node)
    (ptr_right node) (ptr_up node).

(** The search key as a btrfs key: objectid, then type, then offset. *)
Definition key_le (a b : Z * Z * Z) : bool :=
  let '(a1, a2, a3) := a in
  let '(b1, b2, b3) := b in
  (a1 <? b1) || ((a1 =? b1) && ((a2 <? b2) || ((a2 =? b2) && (a3 <=? b3)))).

Definition item_key (it : search_item) : Z * Z * Z :=
  (sh_objectid it, sh_type it, sh_offset it).

(** Modelled from the spec: the range test of the enumerator, "cursor key
    monotonically increases over subvol_id, ties broken by record type and
    parent_root_id": an item is delivered when its key lies between the
    cursor's minimum key and its maximum key. *)
Definition key_in_sk (sk : btrfs_ioctl_search_key) (it : search_item) : bool :=
  key_le (min_objectid sk, min_type sk, min_offset sk) (item_key it)
  && key_le (item_key it) (max_objectid sk, max_type sk, max_offset sk).

(** Modelled from the spec: the Enumerator of section 6,
    [search(cursor) -> Batch], over the backreference records [records] of
    a filesystem (in key order): the records in the cursor's range, at
    most [cap] of them ("batch size is bounded") and at most [nr_items];
    "an empty batch signals completion".  The call itself succeeds. *)
Definition enumerator (cap : nat) (records : list search_item)
           (sk : btrfs_ioctl_search_key) : Z * list search_item :=
  (0, firstn (Nat.min cap (Z.to_nat (nr_items sk)))
        (filter (key_in_sk sk) records)).

(** A backreference record as the enumerator delivers it. *)
Definition backref (objectid parent dirid : Z) (nm : string) : search_item :=
  mk_search_item objectid BTRFS_ROOT_BACKREF_KEY parent dirid
    (String.length nm) nm.

(** A path lookup that finds every directory at the top of its root. *)
Definition lookup_at_top (treeid objectid : Z) : Z * string :=
  (0, EmptyString).

(** The index a run of the build loop leaves, when it leaves one. *)
Definition built_index (r : result (Z + Z * rb_tree)) : option rb_tree :=
  match r with
  | Ok (inr (_, root)) => Some root
  | _ => None
  end.

(** The composite keys of an index, leftmost node first. *)
Definition keys (t : rb_tree) : list (Z * Z) := map key_of (elements t).

(** ** Ordering of the index *)

(** [above e e']: the key of [e] is larger than the key of [e']. *)
Definition above (e e' : root_info) : Prop :=
  root_id e > root_id e' \/ (root_id e = root_id e' /\ ref_tree e > ref_tree e').

(** The index invariant: from the leftmost node to the rightmost the keys
    go strictly DOWN, since [tree_insert] sends larger keys to the left. *)
Definition rb_ordered (t : rb_tree) : Prop := StronglySorted above (elements t).

(** The in-order context of a pointer. *)
Fixpoint path_before {P : Type} (up : rb_path_of P) : list (root_info_of P) :=
  match up with
  | [] => []
  | from_left _ _ _ :: up' => path_before up'
  | from_right _ l e :: up' => path_before up' ++ elements l ++ [e]
  end.

Fixpoint path_after {P : Type} (up : rb_path_of P) : list (root_info_of P) :=
  match up with
  | [] => []
  | from_left _ e r :: up' => e :: elements r ++ path_after up'
  | from_right _ _ _ :: up' => path_after up'
  end.

Definition ptr_before {P : Type} (n : rb_ptr_of P) : list (root_info_of P) :=
  path_before (ptr_up n) ++ elements (ptr_left n).

Definition ptr_after {P : Type} (n : rb_ptr_of P) : list (root_info_of P) :=
  elements (ptr_right n) ++ path_after (ptr_up n).

(** The states of the index that insertions lead to. *)
Inductive inserted (rb_insert_color : rb_ptr -> rb_tree) : rb_tree -> Prop :=
| inserted_init : inserted rb_insert_color root_lookup_init
| inserted_step : forall t root_id' ref_tree' node,
    inserted rb_insert_color t ->
    key_of node = (root_id', ref_tree') ->
    inserted rb_insert_color
      (snd (tree_insert rb_insert_color t root_id' ref_tree' node)).

(** The contract of [rb_insert_color] that the theorems rely on: rotations
    and recolourings keep the records and their left-to-right order. *)
Definition keeps_order (rb_insert_color : rb_ptr -> rb_tree) : Prop :=
  forall n, elements (rb_insert_color n) = elements (ptr_root n).

(** [has_root_id id] selects the records of subvolume [id]. *)
Definition has_root_id (id : Z) (e : root_info) : bool := root_id e =? id.

(** The resolve phase on the records in the order they are visited: the
    value returned when a lookup fails, and the records as they are left. *)
Fixpoint fill_list (lookup : root_info -> Z * root_info)
         (l : list root_info) : option Z * list root_info :=
  match l with
  | [] => (None, [])
  | e :: l' =>
      let (ret, e') := lookup e in
      if ret <? 0 then (Some ret, e' :: l')
      else let (r, l'') := fill_list lookup l' in (r, e' :: l'')
  end.

(** ** Sample data: the filesystem of the end-to-end scenario

    Three subvolumes: the top level 5, [snap1] (256) inside it, and
    [nested] (257) inside [snap1]. *)

Definition scenario_records : list search_item :=
  [ backref 5 5 0 "toplevel";
    backref 256 5 256 "snap1";
    backref 257 256 256 "nested" ].

Definition rec_toplevel : root_info :=
  mk_root_info 5 5 0 (Some "toplevel"%string) "toplevel".
Definition rec_snap1 : root_info :=
  mk_root_info 256 5 256 (Some "snap1"%string) "snap1".
Definition rec_nested : root_info :=
  mk_root_info 257 256 256 (Some "nested"%string) "nested".

(** The three records in an index, as [tree_insert] arranges them: the
    larger keys to the left. *)
Definition scenario_index : rb_tree :=
  rb_node RB_BLACK (rb_node RB_RED rb_nil rec_nested rb_nil)
    rec_snap1 (rb_node RB_RED rb_nil rec_toplevel rb_nil).

(** An index that holds [snap1] alone: its parent 5 is not indexed. *)
Definition orphan_index : rb_tree := rb_node RB_BLACK rb_nil rec_snap1 rb_nil.

(** A path lookup that finds every directory under [dir/]. *)
Definition lookup_in_dir (treeid objectid : Z) : Z * string :=
  (0, "dir/"%string).

(** The index after [add_root] has taken the three records of the
    scenario, rebalanced as the Linux rbtree does. *)
Definition scenario_built : rb_tree :=
  snd (tree_insert linux_rb_insert_color
         (snd (tree_insert linux_rb_insert_color
                 (snd (tree_insert linux_rb_insert_color root_lookup_init
                         5 5 (new_root_info 5 5 0 "toplevel" 8)))
                 256 5 (new_root_info 256 5 256 "snap1" 5)))
         257 256 (new_root_info 257 256 256 "nested" 6)).

(** What holds of the index when the build loop is done: it is ordered,
    and no [path] has been filled in yet. *)
Definition fresh_index (t : rb_tree) : Prop :=
  rb_ordered t /\ Forall (fun e => path e = None) (elements t).

(** The records up to and including the one a pointer points to. *)
Definition upto (n : option rb_ptr) : list root_info :=
  match n with
  | None => []
  | Some n => ptr_before n ++ [ptr_entry n]
  end.

(** A path lookup that fails for the directory 256 of root 5, which is
    where [snap1] lives, and finds every other directory at the top. *)
Definition lookup_fails_for_snap1 (treeid objectid : Z) : Z * string :=
  if (treeid =? 5) && (objectid =? 256) then (-1, EmptyString)
  else (0, EmptyString).

(** An index in which subvolume 257 is referenced from two roots, 5 and
    256, as [add_root] builds it. *)
Definition two_parent_index : rb_tree :=
  snd (tree_insert linux_rb_insert_color
         (snd (tree_insert linux_rb_insert_color root_lookup_init
                 257 5 (new_root_info 257 5 256 "snap" 4)))
         257 256 (new_root_info 257 256 256 "snap" 4)).

(** A filesystem with four subvolumes: 256 and 258 in the top level 5, and
    257 inside 256. *)
Definition paged_records : list search_item :=
  [ backref 256 5 256 "a";
    backref 257 256 256 "b";
    backref 258 5 256 "c" ].

(** ** Trees of records under a change of the records *)

Section Map.

Context {P Q : Type}.
Variable f : root_info_of P -> root_info_of Q.

Fixpoint map_tree (t : rb_tree_of P) : rb_tree_of Q :=
  match t with
  | rb_nil => rb_nil
  | rb_node c l e r => rb_node c (map_tree l) (f e) (map_tree r)
  end.

Definition map_step (s : rb_step_of P) : rb_step_of Q :=
  match s with
  | from_left c e r => from_left c (f e) (map_tree r)
  | from_right c l e => from_right c (map_tree l) (f e)
  end.

Definition map_ptr (n : rb_ptr_of P) : rb_ptr_of Q :=
  mk_ptr (ptr_color n) (map_tree (ptr_left n)) (f (ptr_entry n))
    (map_tree (ptr_right n)) (map map_step (ptr_up n)).

End Map.

Definition map_result {A B : Type} (g : A -> B) (r : result A) : result B :=
  match r with
  | Ok a => Ok (g a)
  | Exit s => Exit s
  | Segv => Segv
  | Timeout => Timeout
  end.

(** ** The memory of the strings

    [resolve_root] once more, this time with the buffers it works on: a
    [char *] is an address, the strings live in a heap that the function
    reads and writes, and [malloc] is a parameter that picks an address
    which is not in use.  The index is a tree of records whose [path]
    holds an address. *)

Module Mem.

(** An address. *)
Abbreviation addr := nat.

(** The allocated buffers and the C string each one holds; of two cells
    for one address the first counts. *)
Definition heap : Type := list (addr * string).

(** Reading the C string at [a]; [None]: nothing is allocated there. *)
Fixpoint load (h : heap) (a : addr) : option string :=
  match h with
  | [] => None
  | (b, s) :: h' => if Nat.eqb a b then Some s else load h' a
  end.

(** Filling the buffer at [a] with the string [s] ([memcpy] and the
    assignments to single bytes, taken together). *)
Definition store (h : heap) (a : addr) (s : string) : heap := (a, s) :: h.

(** [free] *)
Definition free (h : heap) (a : addr) : heap :=
  filter (fun c => negb (Nat.eqb (fst c) a)) h.

Section Allocator.

(** [malloc]: the address it returns in a given heap. *)
Variable malloc : heap -> addr.

(** A call of [malloc]: the new buffer holds no string yet. *)
Definition alloc (h : heap) : addr * heap :=
  let a := malloc h in (a, store h a EmptyString).

(** [strdup] *)
Definition strdup (h : heap) (s : string) : addr * heap :=
  let (a, h1) := alloc h in (a, store h1 a s).

(** The body of the [while (1)] of [resolve_root] up to the assignment of
    [next]: the new value of [full_path] and the heap, or [None] when a
    pointer that is read does not point to a string. *)
Definition prepend (h : heap) (found_path : string) (full_path : option addr)
  : option (addr * heap) :=
  let (tmp, h1) := alloc h in
  match full_path with
  | Some fp =>
      match load h1 fp with
      | Some s =>
          Some (tmp, free (store h1 tmp (found_path ++ "/" ++ s)%string) fp)
      | None => None
      end
  | None => Some (strdup h1 found_path)       (* [tmp] is not used *)
  end.

(** The [while (1)] of [resolve_root]. *)
Fixpoint resolve_root_loop (fuel : nat) (rl : rb_tree_of addr)
         (found : root_info_of addr) (full_path : option addr) (h : heap)
  : result (Z * addr * heap) :=
  match fuel with
  | O => Timeout
  | S fuel' =>
      match path found with
      | None => Segv
      | Some p =>
          match load h p with
          | None => Segv
          | Some found_path =>
              match prepend h found_path full_path with
              | None => Segv
              | Some (full_path', h') =>
                  let next := ref_tree found in
                  if next =? root_id found then Ok (next, full_path', h')
                  else
                    let* r := tree_search fuel' rl next in
                    match r with
                    | None => Ok (next, full_path', h')
                    | Some found' =>
                        resolve_root_loop fuel' rl found' (Some full_path') h'
                    end
              end
          end
      end
  end.

(** [resolve_root]: the line printed, and the heap after
    [free(full_path)]. *)
Definition resolve_root (fuel : nat) (rl : rb_tree_of addr)
           (ri : root_info_of addr) (h : heap) : result (report * heap) :=
  let* r := resolve_root_loop fuel rl ri None h in
  let '(top_id, full_path, h') := r in
  match load h' full_path with
  | Some s => Ok (mk_report (root_id ri) top_id s, free h' full_path)
  | None => Segv
  end.

End Allocator.

(** What [malloc] is relied on for: the address it returns is not in
    use. *)
Definition fresh (malloc : heap -> addr) : Prop :=
  forall h, load h (malloc h) = None.

(** A record as it reads through the heap: the [path] pointer replaced by
    the string it points to. *)
Definition deref (h : heap) (e : root_info_of addr) : root_info :=
  mk_root_info (root_id e) (ref_tree e) (dir_id e)
    (match path e with
     | Some a => load h a
     | None => None
     end)
    (name e).

(** The [path] pointers of the index point to allocated buffers. *)
Definition paths_allocated (h : heap) (rl : rb_tree_of addr) : Prop :=
  forall e a, In e (elements rl) -> path e = Some a -> load h a <> None.

(** The heap [h'] holds every buffer of [h], with the string it held. *)
Definition preserves (h h' : heap) : Prop :=
  forall a, load h a <> None -> load h' a = load h a.

(** An allocator to run the model with: one past the largest address in
    use. *)
Definition bump (h : heap) : addr := S (fold_right Nat.max 0%nat (map fst h)).

(** The index of the scenario in memory: the three paths at the
    addresses 0, 1 and 2. *)
Definition scenario_heap : heap :=
  [ (0%nat, "toplevel"%string); (1%nat, "snap1"%string);
    (2%nat, "nested"%string) ].

Definition scenario_index : rb_tree_of addr :=
  rb_node RB_BLACK
    (rb_node RB_RED rb_nil (mk_root_info 257 256 256 (Some 2%nat) "nested")
       rb_nil)
    (mk_root_info 256 5 256 (Some 1%nat) "snap1")
    (rb_node RB_RED rb_nil (mk_root_info 5 5 0 (Some 0%nat) "toplevel")
       rb_nil).

End Mem.

(** ** Definitions for the further properties *)

(** The key under which [list_subvols] indexes an item: [sh->objectid]
    and [sh->offset]. *)
Definition index_key (it : search_item) : Z * Z :=
  (sh_objectid it, sh_offset it).

(** The record [add_root] allocates for an item, with the arguments the
    [for] loop passes. *)
Definition item_record (it : search_item) : root_info :=
  new_root_info (sh_objectid it) (sh_offset it) (ref_dirid it) (ref_name it)
    (ref_name_len it).

(** The items of a batch can all be inserted: no two of them share an
    index key, and none of their keys is in the index. *)
Definition insertable (root : rb_tree) (items : list search_item) : Prop :=
  NoDup (map index_key items)
  /\ forall it, In it items -> ~ In (index_key it) (keys root).

(** The search key when the [for] loop over a batch is done. *)
Definition cursor_after (sk : btrfs_ioctl_search_key)
           (items : list search_item) : btrfs_ioctl_search_key :=
  fold_left record_mins items sk.

(** The search key of the next ioctl, when there is one. *)
Definition next_search_key (sk : btrfs_ioctl_search_key)
           (items : list search_item) : btrfs_ioctl_search_key :=
  step_objectid (set_nr_items (cursor_after sk items) 4096).

(** The paths of a chain of records put together, the topmost first, with
    a [/] between them. *)
Fixpoint join_paths (ps : list string) : string :=
  match ps with
  | [] => EmptyString
  | [p] => p
  | p :: rest => (p ++ "/" ++ join_paths rest)%string
  end.

(** A chain of records that [resolve_root] follows in the index [rl]: each
    record but the last is referenced from another subvolume, and the next
    record is the one [tree_search] returns for that subvolume; the last
    record refers to itself or to a subvolume that has no record. *)
Fixpoint parent_chain (rl : rb_tree) (l : list root_info) : Prop :=
  match l with
  | [] => False
  | a :: rest =>
      match rest with
      | [] => ref_tree a = root_id a
              \/ (forall x, In x (elements rl) -> root_id x <> ref_tree a)
      | b :: _ =>
          ref_tree a <> root_id a
          /\ find (has_root_id (ref_tree a)) (elements rl) = Some b
          /\ parent_chain rl rest
      end
  end.

(** Two subvolumes each recorded as living in the other. *)
Definition rec_ping : root_info :=
  mk_root_info 256 257 256 (Some "ping"%string) "ping".
Definition rec_pong : root_info :=
  mk_root_info 257 256 256 (Some "pong"%string) "pong".
Definition cyclic_index : rb_tree :=
  rb_node RB_BLACK (rb_node RB_RED rb_nil rec_pong rb_nil) rec_ping rb_nil.

(** The line that belongs to a record [e] of the index [rl]: [e] starts a
    chain of at most [bound] resolved records, and the line has the
    [root_id] of [e], the [ref_tree] of the last record of the chain and
    the joined paths. *)
Definition chain_line (bound : nat) (rl : rb_tree) (e : root_info)
           (line : report) : Prop :=
  exists l ps,
    parent_chain rl (e :: l)
    /\ Forall2 (fun x p => path x = Some p) (e :: l) ps
    /\ (List.length (e :: l) <= bound)%nat
    /\ line = mk_report (root_id e) (ref_tree (last l e))
                (join_paths (rev ps)).

(** A path lookup that returns a positive value, which is neither 0 nor a
    failure in the eyes of [list_subvols]. *)
Definition lookup_positive (treeid objectid : Z) : Z * string :=
  (1, EmptyString).

(** A second allocator to run the memory model with: it leaves a gap
    above the largest address in use. *)
Definition bump_far (h : Mem.heap) : Mem.addr := (Mem.bump h + 7)%nat.

(** * Properties *)

Unset Implicit Arguments.

(** ** Pointers and the left-to-right order *)

Section Navigation.

Context {P : Type}.

Local Abbreviation rb_tree := (rb_tree_of P).
Local Abbreviation rb_path := (rb_path_of P).
Local Abbreviation rb_ptr := (rb_ptr_of P).
Local Abbreviation root_info := (root_info_of P).

Lemma elements_plug (t : rb_tree) (up : rb_path) :
  elements (plug t up) = path_before up ++ elements t ++ path_after up.
Proof.
  revert t. induction up as [|[c e r|c l e] up IH]; intros t; simpl.
  - now rewrite app_nil_r.
  - rewrite IH. simpl. now rewrite <- app_assoc.
  - rewrite IH. simpl. now rewrite <- !app_assoc.
Qed.

Lemma elements_ptr_root (n : rb_ptr) :
  elements (ptr_root n) = ptr_before n ++ ptr_entry n :: ptr_after n.
Proof.
  unfold ptr_root, ptr_before, ptr_after, ptr_node.
  rewrite elements_plug. simpl. now rewrite <- !app_assoc.
Qed.

Lemma length_elements (t : rb_tree) :
  List.length (elements t) = rb_count t.
Proof.
  induction t as [|c l IHl e r IHr]; simpl; trivial.
  rewrite length_app. simpl. lia.
Qed.

Lemma leftmost_none (t : rb_tree) (up : rb_path) :
  leftmost t up = None -> t = rb_nil.
Proof.
  destruct t as [|c l e r]; simpl; trivial.
  destruct (leftmost l _); discriminate.
Qed.

Lemma rightmost_none (t : rb_tree) (up : rb_path) :
  rightmost t up = None -> t = rb_nil.
Proof.
  destruct t as [|c l e r]; simpl; trivial.
  destruct (rightmost r _); discriminate.
Qed.

Lemma leftmost_some (t : rb_tree) : forall (up : rb_path) (n : rb_ptr),
  leftmost t up = Some n ->
  ptr_root n = plug t up /\
  ptr_before n = path_before up /\
  ptr_entry n :: ptr_after n = elements t ++ path_after up.
Proof.
  induction t as [|c l IHl e r IHr]; intros up n H; simpl in H.
  - discriminate.
  - destruct (leftmost l (from_left c e r :: up)) as [m|] eqn:E.
    + injection H as ->. destruct (IHl _ _ E) as (R & B & A).
      simpl in *. repeat split; trivial.
      rewrite A. now rewrite <- app_assoc.
    + injection H as <-. apply leftmost_none in E. subst l.
      unfold ptr_root, ptr_before, ptr_after, ptr_node. simpl.
      repeat split; trivial. now rewrite app_nil_r.
Qed.

Lemma rightmost_some (t : rb_tree) : forall (up : rb_path) (n : rb_ptr),
  rightmost t up = Some n ->
  ptr_root n = plug t up /\
  ptr_after n = path_after up /\
  ptr_before n ++ [ptr_entry n] = path_before up ++ elements t.
Proof.
  induction t as [|c l IHl e r IHr]; intros up n H; simpl in H.
  - discriminate.
  - destruct (rightmost r (from_right c l e :: up)) as [m|] eqn:E.
    + injection H as ->. destruct (IHr _ _ E) as (R & A & B).
      simpl in *. repeat split; trivial.
      rewrite B. rewrite <- !app_assoc. reflexivity.
    + injection H as <-. apply rightmost_none in E. subst r.
      unfold ptr_root, ptr_before, ptr_after, ptr_node. simpl.
      repeat split; trivial. now rewrite <- app_assoc.
Qed.

Lemma climb_next_none (up : rb_path) : forall t,
  climb_next t up = None -> path_after up = [].
Proof.
  induction up as [|[c e r|c l e] up IH]; intros t H; simpl in *;
    trivial; try discriminate.
  eapply IH; eauto.
Qed.

Lemma climb_prev_none (up : rb_path) : forall t,
  climb_prev t up = None -> path_before up = [].
Proof.
  induction up as [|[c e r|c l e] up IH]; intros t H; simpl in *;
    trivial; try discriminate.
  eapply IH; eauto.
Qed.

Lemma climb_next_some (up : rb_path) : forall t n,
  climb_next t up = Some n ->
  ptr_root n = plug t up /\
  ptr_before n = path_before up ++ elements t /\
  ptr_entry n :: ptr_after n = path_after up.
Proof.
  induction up as [|[c e r|c l e] up IH]; intros t n H; simpl in H.
  - discriminate.
  - injection H as <-. unfold ptr_root, ptr_before, ptr_after. simpl.
    repeat split; trivial.
  - destruct (IH _ _ H) as (R & B & A). simpl.
    repeat split; trivial. rewrite B. simpl.
    rewrite <- !app_assoc. reflexivity.
Qed.

Lemma climb_prev_some (up : rb_path) : forall t n,
  climb_prev t up = Some n ->
  ptr_root n = plug t up /\
  ptr_after n = elements t ++ path_after up /\
  ptr_before n ++ [ptr_entry n] = path_before up.
Proof.
  induction up as [|[c e r|c l e] up IH]; intros t n H; simpl in H.
  - discriminate.
  - destruct (IH _ _ H) as (R & A & B). simpl.
    repeat split; trivial. rewrite A. simpl.
    rewrite <- !app_assoc. reflexivity.
  - injection H as <-. unfold ptr_root, ptr_before, ptr_after. simpl.
    repeat split; trivial. now rewrite <- app_assoc.
Qed.

(** [rb_next] moves one record to the right, [rb_prev] one to the left;
    both stay in the same tree. *)
Lemma rb_next_some (n m : rb_ptr) :
  rb_next n = Some m ->
  ptr_root m = ptr_root n /\
  ptr_before m = ptr_before n ++ [ptr_entry n] /\
  ptr_entry m :: ptr_after m = ptr_after n.
Proof.
  unfold rb_next. intros H.
  destruct (leftmost (ptr_right n) _) as [k|] eqn:E.
  - injection H as ->. destruct (leftmost_some _ _ _ E) as (R & B & A).
    simpl in *. repeat split; trivial.
    rewrite B. unfold ptr_before. now rewrite <- app_assoc.
  - apply leftmost_none in E.
    destruct (climb_next_some _ _ _ H) as (R & B & A).
    repeat split; trivial.
    + rewrite B. unfold ptr_before, ptr_node. simpl. rewrite E. simpl.
      now rewrite <- app_assoc.
    + rewrite A. unfold ptr_after. now rewrite E.
Qed.

Lemma rb_next_none (n : rb_ptr) : rb_next n = None -> ptr_after n = [].
Proof.
  unfold rb_next. intros H.
  destruct (leftmost (ptr_right n) _) as [k|] eqn:E; try discriminate.
  apply leftmost_none in E. apply climb_next_none in H.
  unfold ptr_after. now rewrite E, H.
Qed.

Lemma rb_prev_some (n m : rb_ptr) :
  rb_prev n = Some m ->
  ptr_root m = ptr_root n /\
  ptr_before m ++ [ptr_entry m] = ptr_before n /\
  ptr_after m = ptr_entry n :: ptr_after n.
Proof.
  unfold rb_prev. intros H.
  destruct (rightmost (ptr_left n) _) as [k|] eqn:E.
  - injection H as ->. destruct (rightmost_some _ _ _ E) as (R & A & B).
    simpl in *. repeat split; trivial.
  - apply rightmost_none in E.
    destruct (climb_prev_some _ _ _ H) as (R & A & B).
    repeat split; trivial.
    + rewrite B. unfold ptr_before. rewrite E. simpl. now rewrite app_nil_r.
    + rewrite A. unfold ptr_after, ptr_node. simpl. rewrite E. reflexivity.
Qed.

Lemma rb_prev_none (n : rb_ptr) : rb_prev n = None -> ptr_before n = [].
Proof.
  unfold rb_prev. intros H.
  destruct (rightmost (ptr_left n) _) as [k|] eqn:E; try discriminate.
  apply rightmost_none in E. apply climb_prev_none in H.
  unfold ptr_before. now rewrite E, H.
Qed.

Lemma rb_first_some (root : rb_tree) (n : rb_ptr) :
  rb_first root = Some n ->
  ptr_root n = root /\ ptr_before n = [] /\
  ptr_entry n :: ptr_after n = elements root.
Proof.
  unfold rb_first. intros H. destruct (leftmost_some _ _ _ H) as (R & B & A).
  simpl in *. rewrite app_nil_r in A. auto.
Qed.

Lemma rb_last_some (root : rb_tree) (n : rb_ptr) :
  rb_last root = Some n ->
  ptr_root n = root /\ ptr_after n = [] /\
  ptr_before n ++ [ptr_entry n] = elements root.
Proof.
  unfold rb_last. intros H. destruct (rightmost_some _ _ _ H) as (R & A & B).
  simpl in *. auto.
Qed.

Lemma ptr_store_before (n : rb_ptr) (e : root_info) :
  ptr_before (ptr_store n e) = ptr_before n.
Proof. reflexivity. Qed.

Lemma ptr_store_after (n : rb_ptr) (e : root_info) :
  ptr_after (ptr_store n e) = ptr_after n.
Proof. reflexivity. Qed.

Lemma tree_search_walk_some (n : rb_tree) : forall up id m,
  tree_search_walk n up id = Some m ->
  root_id (ptr_entry m) = id /\ ptr_root m = plug n up.
Proof.
  induction n as [|c l IHl e r IHr]; intros up id m H; simpl in H.
  - discriminate.
  - destruct (Z.ltb_spec (root_id e) id).
    + destruct (IHl _ _ _ H); auto.
    + destruct (Z.gtb_spec (root_id e) id).
      * destruct (IHr _ _ _ H); auto.
      * injection H as <-. simpl. split; [lia | reflexivity].
Qed.

(** What [tree_search] returns is a record of the tree, with the
    [root_id] asked for. *)
Lemma tree_search_back_in (fuel : nat) : forall (n : rb_ptr) id e,
  root_id (ptr_entry n) = id ->
  tree_search_back fuel n id = Ok e ->
  In e (elements (ptr_root n)) /\ root_id e = id.
Proof.
  induction fuel as [|fuel IH]; intros n id e Hid H; simpl in H;
    [discriminate|].
  assert (Here : In (ptr_entry n) (elements (ptr_root n))).
  { rewrite elements_ptr_root. apply in_or_app. simpl. auto. }
  destruct (rb_prev n) as [m|] eqn:Pv.
  - destruct (rb_prev_some _ _ Pv) as (R & _ & _).
    destruct (Z.eqb_spec (root_id (ptr_entry m)) id) as [E|E]; simpl in H.
    + rewrite <- R. now apply IH.
    + injection H as <-. auto.
  - injection H as <-. auto.
Qed.

Lemma tree_search_in (fuel : nat) (rl : rb_tree) (id : Z) (e : root_info) :
  tree_search fuel rl id = Ok (Some e) ->
  In e (elements rl) /\ root_id e = id.
Proof.
  unfold tree_search. destruct (tree_search_walk rl [] id) as [n|] eqn:W;
    [|discriminate].
  destruct (tree_search_walk_some _ _ _ _ W) as (Hid & R). simpl in R.
  destruct (tree_search_back fuel n id) as [x| | |] eqn:B; simpl;
    try discriminate.
  intros [= <-]. rewrite <- R. now apply (tree_search_back_in fuel n id).
Qed.

End Navigation.

(** ** Sorted lists *)

Section Sorted_lists.

Variable A : Type.
Variable R : A -> A -> Prop.

Lemma sorted_app (l1 l2 : list A) :
  StronglySorted R (l1 ++ l2) <->
  StronglySorted R l1 /\ StronglySorted R l2 /\
  (forall x y, In x l1 -> In y l2 -> R x y).
Proof.
  induction l1 as [|a l1 IH]; simpl.
  - split.
    + intros H. repeat split; trivial; [constructor | intros x y []].
    + now intros (_ & H & _).
  - split.
    + intros H. inversion H as [|? ? S F]; subst.
      apply IH in S. destruct S as (S1 & S2 & C).
      rewrite Forall_app in F. destruct F as (F1 & F2).
      repeat split; trivial.
      * now constructor.
      * intros x y [<-|Hx] Hy; [|now apply C].
        rewrite Forall_forall in F2. now apply F2.
    + intros (S1 & S2 & C). inversion S1 as [|? ? S F]; subst.
      constructor.
      * apply IH. repeat split; trivial. intros x y Hx Hy. apply C; auto.
      * rewrite Forall_app. split; trivial.
        rewrite Forall_forall. intros y Hy. apply C; auto.
Qed.

Lemma sorted_insert (l1 l2 : list A) (a : A) :
  (forall x y z, R x y -> R y z -> R x z) ->
  StronglySorted R (l1 ++ l2) ->
  (forall x, In x l1 -> R x a) ->
  (forall y, In y l2 -> R a y) ->
  StronglySorted R (l1 ++ a :: l2).
Proof.
  intros T S H1 H2. apply sorted_app in S. destruct S as (S1 & S2 & C).
  apply sorted_app. repeat split; trivial.
  - constructor; trivial. rewrite Forall_forall. exact H2.
  - intros x y Hx [<-|Hy]; auto.
Qed.

End Sorted_lists.

Lemma sorted_rev (A : Type) (R : A -> A -> Prop) (l : list A) :
  StronglySorted R l -> StronglySorted (fun x y => R y x) (rev l).
Proof.
  induction 1 as [|a l S IH F]; simpl.
  - constructor.
  - apply sorted_app. repeat split; trivial.
    + repeat constructor.
    + intros x y Hx [<-|[]]. rewrite <- in_rev in Hx.
      rewrite Forall_forall in F. now apply F.
Qed.

Lemma sorted_map (A B : Type) (R : A -> A -> Prop) (Q : B -> B -> Prop)
      (f : A -> B) (l : list A) :
  (forall x y, R x y -> Q (f x) (f y)) ->
  StronglySorted R l -> StronglySorted Q (map f l).
Proof.
  intros HQ. induction 1 as [|a l S IH F]; simpl; constructor; trivial.
  rewrite Forall_forall in *. intros b Hb.
  apply in_map_iff in Hb. destruct Hb as (x & <- & Hx). auto.
Qed.

(** ** The order of the keys *)

Lemma above_trans (x y z : root_info) : above x y -> above y z -> above x z.
Proof. unfold above. lia. Qed.

Lemma above_irrefl (x : root_info) : ~ above x x.
Proof. unfold above. lia. Qed.

Lemma above_key_neq (x y : root_info) : above x y -> key_of x <> key_of y.
Proof. unfold above, key_of. intros H E. injection E as E1 E2. lia. Qed.

Lemma comp_entry_neg (e : root_info) (i r : Z) :
  (comp_entry e i r <? 0) = true <->
  root_id e < i \/ (root_id e = i /\ ref_tree e < r).
Proof.
  unfold comp_entry.
  destruct (Z.gtb_spec (root_id e) i), (Z.ltb_spec (root_id e) i),
    (Z.gtb_spec (ref_tree e) r), (Z.ltb_spec (ref_tree e) r);
    simpl; split; intros HH; try discriminate; try lia; trivial.
Qed.

Lemma comp_entry_pos (e : root_info) (i r : Z) :
  (comp_entry e i r >? 0) = true <->
  root_id e > i \/ (root_id e = i /\ ref_tree e > r).
Proof.
  unfold comp_entry.
  destruct (Z.gtb_spec (root_id e) i), (Z.ltb_spec (root_id e) i),
    (Z.gtb_spec (ref_tree e) r), (Z.ltb_spec (ref_tree e) r);
    simpl; split; intros HH; try discriminate; try lia; trivial.
Qed.

Lemma comp_entry_zero (e : root_info) (i r : Z) :
  (comp_entry e i r <? 0) = false -> (comp_entry e i r >? 0) = false ->
  key_of e = (i, r).
Proof.
  unfold comp_entry, key_of.
  destruct (Z.gtb_spec (root_id e) i), (Z.ltb_spec (root_id e) i),
    (Z.gtb_spec (ref_tree e) r), (Z.ltb_spec (ref_tree e) r);
    simpl; intros; try discriminate; f_equal; lia.
Qed.

Lemma sorted_keys_nodup (l : list root_info) :
  StronglySorted above l -> NoDup (map key_of l).
Proof.
  induction 1 as [|a l S IH F]; simpl; constructor; trivial.
  intros H. apply in_map_iff in H. destruct H as (x & E & Hx).
  rewrite Forall_forall in F. apply F in Hx.
  apply above_key_neq in Hx. congruence.
Qed.

(** ** [tree_insert] *)

Lemma tree_insert_walk_found (p : rb_tree) : forall up i r n,
  tree_insert_walk p up i r = inl n ->
  key_of (ptr_entry n) = (i, r) /\ ptr_root n = plug p up.
Proof.
  induction p as [|c l IHl e r' IHr]; intros up i r n H; simpl in H.
  - discriminate.
  - destruct (comp_entry e i r <? 0) eqn:E1.
    + destruct (IHl _ _ _ _ H) as (K & P). auto.
    + destruct (comp_entry e i r >? 0) eqn:E2.
      * destruct (IHr _ _ _ _ H) as (K & P). auto.
      * injection H as <-. split; [now apply comp_entry_zero | reflexivity].
Qed.

(** Where the walk ends at an empty link, the link splits the records of
    the subtree into those above the new key and those below it. *)
Lemma tree_insert_walk_slot (node : root_info) (p : rb_tree) :
  forall up i r slot,
  key_of node = (i, r) ->
  StronglySorted above (elements p) ->
  tree_insert_walk p up i r = inr slot ->
  exists X Y,
    elements p = X ++ Y /\
    path_before slot = path_before up ++ X /\
    path_after slot = Y ++ path_after up /\
    (forall x, In x X -> above x node) /\
    (forall y, In y Y -> above node y).
Proof.
  induction p as [|c l IHl e r' IHr]; intros up i r slot K S H; simpl in H.
  - injection H as <-. exists [], []. simpl. rewrite app_nil_r.
    repeat split; trivial; intros ? [].
  - simpl in S. apply sorted_app in S. destruct S as (Sl & Sr & C).
    inversion Sr as [|? ? Sr' Fr]; subst. rewrite Forall_forall in Fr.
    unfold key_of in K. injection K as K1 K2.
    destruct (comp_entry e i r <? 0) eqn:E1.
    + apply comp_entry_neg in E1.
      assert (Ae : above node e) by (unfold above; lia).
      destruct (IHl _ _ _ _ (f_equal2 pair K1 K2) Sl H)
        as (X & Y & EL & B & A & HX & HY).
      exists X, (Y ++ e :: elements r'). simpl in *.
      repeat split; trivial.
      * rewrite EL. now rewrite <- app_assoc.
      * rewrite A. now rewrite <- app_assoc.
      * intros y Hy. apply in_app_or in Hy. destruct Hy as [Hy|[<-|Hy]]; auto.
        eapply above_trans; eauto.
    + destruct (comp_entry e i r >? 0) eqn:E2; [|discriminate].
      apply comp_entry_pos in E2.
      assert (Ae : above e node) by (unfold above; lia).
      destruct (IHr _ _ _ _ (f_equal2 pair K1 K2) Sr' H)
        as (X & Y & ER & B & A & HX & HY).
      exists (elements l ++ e :: X), Y. simpl in *.
      repeat split; trivial.
      * rewrite ER. rewrite <- app_assoc. reflexivity.
      * rewrite B. rewrite <- !app_assoc. reflexivity.
      * intros x Hx. apply in_app_or in Hx. destruct Hx as [Hx|[<-|Hx]]; auto.
        eapply above_trans; [|exact Ae]. apply C; simpl; auto.
Qed.

Section Index.

Variable rb_insert_color : rb_ptr -> rb_tree.
Hypothesis rb_insert_color_keeps : keeps_order rb_insert_color.

(** What [tree_insert] does to an ordered index. *)
Lemma tree_insert_spec (root : rb_tree) (i r : Z) (node : root_info) :
  rb_ordered root -> key_of node = (i, r) ->
  (exists n, tree_insert rb_insert_color root i r node = (Some n, root) /\
             ptr_root n = root /\ key_of (ptr_entry n) = (i, r)) \/
  (exists root' X Y,
      tree_insert rb_insert_color root i r node = (None, root') /\
      elements root = X ++ Y /\ elements root' = X ++ node :: Y /\
      rb_ordered root' /\ ~ In (i, r) (keys root)).
Proof.
  intros S K. unfold tree_insert.
  destruct (tree_insert_walk root [] i r) as [n|slot] eqn:W.
  - left. exists n. destruct (tree_insert_walk_found _ _ _ _ _ W); auto.
  - right.
    destruct (tree_insert_walk_slot node root [] i r slot K S W)
      as (X & Y & ER & B & A & HX & HY).
    simpl in B, A. rewrite app_nil_r in A.
    assert (EN : elements (rb_insert_color (rb_link_node node slot))
                 = X ++ node :: Y).
    { rewrite rb_insert_color_keeps, elements_ptr_root.
      unfold ptr_before, ptr_after. simpl. now rewrite B, A, app_nil_r. }
    exists (rb_insert_color (rb_link_node node slot)), X, Y.
    repeat split; trivial.
    + unfold rb_ordered. rewrite EN. apply sorted_insert; trivial.
      * exact above_trans.
      * unfold rb_ordered in S. now rewrite ER in S.
    + unfold keys. rewrite ER. intros H. apply in_map_iff in H.
      destruct H as (x & Kx & Hx). rewrite <- K in Kx.
      apply in_app_or in Hx. destruct Hx as [Hx|Hx].
      * apply HX in Hx. now apply above_key_neq in Hx.
      * apply HY in Hx. apply above_key_neq in Hx. congruence.
Qed.

Lemma tree_insert_ordered (root : rb_tree) (i r : Z) (node : root_info) :
  rb_ordered root -> key_of node = (i, r) ->
  rb_ordered (snd (tree_insert rb_insert_color root i r node)).
Proof.
  intros S K.
  destruct (tree_insert_spec root i r node S K)
    as [(n & -> & _)|(root' & X & Y & -> & _ & _ & S' & _)]; trivial.
Qed.

Lemma inserted_ordered (t : rb_tree) :
  inserted rb_insert_color t -> rb_ordered t.
Proof.
  induction 1 as [|t i r node _ IH K].
  - constructor.
  - now apply tree_insert_ordered.
Qed.

End Index.

(** ** [tree_search] *)

Lemma tree_search_walk_absent (n : rb_tree) : forall up id,
  (forall e, In e (elements n) -> root_id e <> id) ->
  tree_search_walk n up id = None.
Proof.
  induction n as [|c l IHl e r IHr]; intros up id H; simpl; trivial.
  simpl in H.
  destruct (Z.ltb_spec (root_id e) id).
  - apply IHl. intros x Hx. apply H. apply in_or_app. auto.
  - destruct (Z.gtb_spec (root_id e) id).
    + apply IHr. intros x Hx. apply H. apply in_or_app. simpl. auto.
    + exfalso. apply (H e); [apply in_or_app; simpl; auto | lia].
Qed.

Lemma tree_search_walk_present (n : rb_tree) : forall up id e,
  StronglySorted above (elements n) ->
  In e (elements n) -> root_id e = id ->
  exists m, tree_search_walk n up id = Some m.
Proof.
  induction n as [|c l IHl x r IHr]; intros up id e S He Hid; simpl in *.
  - destruct He.
  - apply sorted_app in S. destruct S as (Sl & Sr & C).
    inversion Sr as [|? ? Sr' Fr]; subst. rewrite Forall_forall in Fr.
    apply in_app_or in He.
    destruct (Z.ltb_spec (root_id x) (root_id e)).
    + destruct He as [He|[->|He]].
      * eapply IHl; eauto.
      * lia.
      * apply Fr in He. unfold above in He. lia.
    + destruct (Z.gtb_spec (root_id x) (root_id e)).
      * destruct He as [He|[->|He]].
        -- specialize (C e x He (or_introl eq_refl)). unfold above in C. lia.
        -- lia.
        -- eapply IHr; eauto.
      * eauto.
Qed.

Lemma tree_search_back_spec (fuel : nat) : forall (n : rb_ptr) id,
  (List.length (ptr_before n) < fuel)%nat ->
  root_id (ptr_entry n) = id ->
  exists e pre mid,
    tree_search_back fuel n id = Ok e /\
    ptr_before n ++ [ptr_entry n] = pre ++ e :: mid /\
    root_id e = id /\
    (pre = [] \/ exists pre' x, pre = pre' ++ [x] /\ root_id x <> id).
Proof.
  induction fuel as [|fuel IH]; intros n id L Hid; [lia|]. simpl.
  destruct (rb_prev n) as [m|] eqn:P.
  - destruct (rb_prev_some _ _ P) as (R & B & A).
    destruct (Z.eqb_spec (root_id (ptr_entry m)) id) as [E|E]; simpl.
    + destruct (IH m id) as (e & pre & mid & T & EQ & He & Hpre); trivial.
      { rewrite <- B, length_app in L. simpl in L. lia. }
      exists e, pre, (mid ++ [ptr_entry n]). repeat split; trivial.
      rewrite <- B, EQ. rewrite <- app_assoc. reflexivity.
    + exists (ptr_entry n), (ptr_before n), []. repeat split; trivial.
      right. exists (ptr_before m), (ptr_entry m). auto.
  - apply rb_prev_none in P. exists (ptr_entry n), [], [].
    rewrite P. repeat split; auto.
Qed.

Lemma find_first (A : Type) (f : A -> bool) (pre post : list A) (e : A) :
  (forall x, In x pre -> f x = false) -> f e = true ->
  find f (pre ++ e :: post) = Some e.
Proof.
  intros Hpre He. induction pre as [|a pre IH]; simpl.
  - now rewrite He.
  - rewrite (Hpre a) by (simpl; auto). apply IH. intros x Hx. apply Hpre.
    simpl; auto.
Qed.

Lemma find_none_iff (A : Type) (f : A -> bool) (l : list A) :
  (forall x, In x l -> f x = false) -> find f l = None.
Proof.
  induction l as [|a l IH]; simpl; trivial. intros H.
  rewrite (H a) by auto. apply IH. auto.
Qed.

(** The record [tree_search] returns: the leftmost one, in the tree, that
    carries the [root_id]. *)
Lemma tree_search_find (fuel : nat) (root : rb_tree) (id : Z) :
  rb_ordered root -> (rb_count root <= fuel)%nat ->
  tree_search fuel root id = Ok (find (has_root_id id) (elements root)).
Proof.
  intros S L. unfold tree_search.
  destruct (tree_search_walk root [] id) as [n|] eqn:W.
  - destruct (tree_search_walk_some _ _ _ _ W) as (Hid & R). simpl in R.
    pose proof (elements_ptr_root n) as EL. rewrite R in EL.
    destruct (tree_search_back_spec fuel n id)
      as (e & pre & mid & T & EQ & He & Hpre); trivial.
    { rewrite <- length_elements, EL, length_app in L. simpl in L. lia. }
    rewrite T. simpl. do 2 f_equal. symmetry.
    assert (EL' : elements root = pre ++ e :: (mid ++ ptr_after n)).
    { rewrite EL.
      change (ptr_entry n :: ptr_after n) with ([ptr_entry n] ++ ptr_after n).
      rewrite app_assoc, EQ, <- app_assoc. reflexivity. }
    rewrite EL'. apply find_first.
    + unfold rb_ordered in S. rewrite EL' in S.
      apply sorted_app in S. destruct S as (Spre & _ & C).
      destruct Hpre as [->|(pre' & x & -> & Hx)]; [intros ? []|].
      assert (Ax : root_id x > id).
      { specialize (C x e). unfold above in C. rewrite He in C.
        assert (root_id x > id \/ root_id x = id /\ ref_tree x > ref_tree e).
        { apply C; [apply in_or_app; simpl; auto | simpl; auto]. }
        lia. }
      apply sorted_app in Spre. destruct Spre as (_ & _ & C').
      intros y Hy. unfold has_root_id. apply Z.eqb_neq.
      apply in_app_or in Hy. destruct Hy as [Hy|[<-|[]]]; [|lia].
      specialize (C' y x Hy (or_introl eq_refl)). unfold above in C'. lia.
    + unfold has_root_id. now apply Z.eqb_eq.
  - symmetry. f_equal. apply find_none_iff. intros x Hx.
    unfold has_root_id. apply Z.eqb_neq. intros E.
    destruct (tree_search_walk_present root [] id x S Hx E) as (m & Hm).
    congruence.
Qed.

(** ** [resolve_root] *)

Lemma tree_search_absent (fuel : nat) (rl : rb_tree) (id : Z) :
  (forall e, In e (elements rl) -> root_id e <> id) ->
  tree_search fuel rl id = Ok None.
Proof.
  intros H. unfold tree_search.
  now rewrite (tree_search_walk_absent rl [] id H).
Qed.

(** One turn of the loop of [resolve_root] that goes on to the parent. *)
Lemma resolve_root_loop_step (fuel : nat) (rl : rb_tree)
      (found parent : root_info) (p : string) (acc : option string) :
  path found = Some p ->
  ref_tree found <> root_id found ->
  tree_search fuel rl (ref_tree found) = Ok (Some parent) ->
  resolve_root_loop (S fuel) rl found acc =
  resolve_root_loop fuel rl parent
    (Some match acc with
          | Some fp => (p ++ "/" ++ fp)%string
          | None => p
          end).
Proof.
  intros P N T. simpl. rewrite P.
  destruct (Z.eqb_spec (ref_tree found) (root_id found)); [contradiction|].
  rewrite T. reflexivity.
Qed.

Lemma resolve_root_loop_top (fuel : nat) (rl : rb_tree) (found : root_info)
      (p : string) (acc : option string) :
  path found = Some p ->
  ref_tree found = root_id found ->
  resolve_root_loop (S fuel) rl found acc =
  Ok (root_id found,
      match acc with
      | Some fp => (p ++ "/" ++ fp)%string
      | None => p
      end).
Proof.
  intros P E. simpl. rewrite P, E, Z.eqb_refl. reflexivity.
Qed.

(** In an ordered index that holds one record for a subvolume,
    [tree_search] finds that record. *)
Lemma tree_search_unique (fuel : nat) (rl : rb_tree) (e : root_info) :
  rb_ordered rl -> (rb_count rl <= fuel)%nat ->
  In e (elements rl) ->
  (forall x, In x (elements rl) -> root_id x = root_id e -> x = e) ->
  tree_search fuel rl (root_id e) = Ok (Some e).
Proof.
  intros S L He U. rewrite tree_search_find by trivial.
  destruct (find (has_root_id (root_id e)) (elements rl)) as [x|] eqn:F.
  - apply find_some in F. destruct F as (Hx & Hid).
    unfold has_root_id in Hid. apply Z.eqb_eq in Hid.
    now rewrite (U x Hx Hid).
  - apply (find_none _ _ F) in He. unfold has_root_id in He.
    now rewrite Z.eqb_refl in He.
Qed.

(** C7.  Stitching a resolved record whose [ref_tree] (parent_root_id)
    equals its own [root_id] ends in the first turn of the loop, whatever
    the index is and however little fuel is left for a search: the top
    level is that [root_id] and the full path is the record's own [path]. *)
Theorem resolve_root_self_reference (rl : rb_tree) (ri : root_info)
        (p : string) (fuel : nat) :
  path ri = Some p ->
  ref_tree ri = root_id ri ->
  resolve_root (S fuel) rl ri = Ok (mk_report (root_id ri) (root_id ri) p).
Proof.
  intros P E. unfold resolve_root.
  rewrite (resolve_root_loop_top fuel rl ri p None P E). reflexivity.
Qed.

Lemma resolve_root_self_reference_witness :
  resolve_root 1 scenario_index rec_toplevel
  = Ok (mk_report 5 5 "toplevel"%string).
Proof.
  apply (resolve_root_self_reference scenario_index rec_toplevel
           "toplevel"%string 0); reflexivity.
Defined.

(** C8.  When the loop of [resolve_root] reaches a resolved record whose
    [ref_tree] differs from its [root_id] and no record of the index
    carries that [ref_tree] as its [root_id], it stops there: the top level
    is the unindexed [ref_tree], and the full path is the path put together
    up to and including this record.  For the record the stitch starts
    from, that path is its own [path]. *)
Theorem resolve_root_unindexed_parent (rl : rb_tree) (found : root_info)
        (p : string) (acc : option string) (fuel : nat) :
  path found = Some p ->
  ref_tree found <> root_id found ->
  (forall e, In e (elements rl) -> root_id e <> ref_tree found) ->
  resolve_root_loop (S fuel) rl found acc
  = Ok (ref_tree found,
        match acc with
        | Some fp => (p ++ "/" ++ fp)%string
        | None => p
        end)
  /\ resolve_root (S fuel) rl found
     = Ok (mk_report (root_id found) (ref_tree found) p).
Proof.
  intros P N A.
  assert (L : forall acc', resolve_root_loop (S fuel) rl found acc'
              = Ok (ref_tree found,
                    match acc' with
                    | Some fp => (p ++ "/" ++ fp)%string
                    | None => p
                    end)).
  { intros acc'. simpl. rewrite P.
    destruct (Z.eqb_spec (ref_tree found) (root_id found)); [contradiction|].
    rewrite (tree_search_absent fuel rl (ref_tree found) A). reflexivity. }
  split; [apply L|]. unfold resolve_root. rewrite L. reflexivity.
Qed.

Lemma resolve_root_unindexed_parent_witness :
  resolve_root_loop 1 orphan_index rec_snap1 (Some "nested"%string)
  = Ok (5, "snap1/nested"%string)
  /\ resolve_root 1 orphan_index rec_snap1
     = Ok (mk_report 256 5 "snap1"%string).
Proof.
  apply (resolve_root_unindexed_parent orphan_index rec_snap1
           "snap1"%string (Some "nested"%string) 0).
  - reflexivity.
  - discriminate.
  - intros e [<-|[]]. discriminate.
Defined.

(** C5.  In an ordered index that holds exactly the resolved records [A],
    [B], [C] of three different subvolumes, [A] referenced from [B]'s
    subvolume, [B] from [C]'s and [C] from itself, stitching [A] gives the
    full path [C.path/B.path/A.path] and the top level [C.root_id]; five
    units of fuel are enough. *)
Theorem resolve_root_three_level_chain (rl : rb_tree) (A B C : root_info)
        (pa pb pc : string) (fuel : nat) :
  rb_ordered rl ->
  Permutation [A; B; C] (elements rl) ->
  path A = Some pa -> path B = Some pb -> path C = Some pc ->
  ref_tree A = root_id B ->
  ref_tree B = root_id C ->
  ref_tree C = root_id C ->
  root_id A <> root_id B ->
  root_id A <> root_id C ->
  root_id B <> root_id C ->
  (5 <= fuel)%nat ->
  resolve_root fuel rl A
  = Ok (mk_report (root_id A) (root_id C) (pc ++ "/" ++ pb ++ "/" ++ pa)%string).
Proof.
  intros S PM PA PB PC AB BC CC NAB NAC NBC F.
  assert (CNT : rb_count rl = 3%nat).
  { rewrite <- length_elements, <- (Permutation_length PM). reflexivity. }
  assert (IN : forall x, In x (elements rl) -> x = A \/ x = B \/ x = C).
  { intros x Hx. apply (Permutation_in _ (Permutation_sym PM)) in Hx.
    simpl in Hx. intuition. }
  assert (INB : In B (elements rl)).
  { apply (Permutation_in _ PM). simpl; auto. }
  assert (INC : In C (elements rl)).
  { apply (Permutation_in _ PM). simpl; auto. }
  destruct fuel as [ | [ | [ | f ] ] ]; try lia.
  unfold resolve_root.
  rewrite (resolve_root_loop_step _ rl A B pa None PA); try congruence.
  2:{ rewrite AB. apply tree_search_unique; trivial; [lia|].
      intros x Hx E. destruct (IN x Hx) as [ -> | [ -> | -> ] ]; congruence. }
  rewrite (resolve_root_loop_step _ rl B C pb (Some pa) PB); try congruence.
  2:{ rewrite BC. apply tree_search_unique; trivial; [lia|].
      intros x Hx E. destruct (IN x Hx) as [ -> | [ -> | -> ] ]; congruence. }
  rewrite (resolve_root_loop_top _ rl C pc _ PC CC). reflexivity.
Qed.

Lemma scenario_index_ordered : rb_ordered scenario_index.
Proof.
  unfold rb_ordered, scenario_index. simpl.
  repeat constructor; unfold above; simpl; lia.
Qed.

Lemma resolve_root_three_level_chain_witness :
  resolve_root 5 scenario_index rec_nested
  = Ok (mk_report 257 5 "toplevel/snap1/nested"%string).
Proof.
  apply (resolve_root_three_level_chain scenario_index
           rec_nested rec_snap1 rec_toplevel
           "nested"%string "snap1"%string "toplevel"%string 5).
  - exact scenario_index_ordered.
  - apply Permutation_refl.
  - reflexivity.
  - reflexivity.
  - reflexivity.
  - reflexivity.
  - reflexivity.
  - reflexivity.
  - discriminate.
  - discriminate.
  - discriminate.
  - lia.
Defined.

(** ** [lookup_ino_path] *)

(** C6.  On a record whose [path] is unset, when the lookup ioctl succeeds,
    [lookup_ino_path] returns 0 and sets [path], and nothing else: to the
    record's [name] when the string the ioctl returns is empty, and to that
    string followed directly by the [name] when it is not. *)
Theorem lookup_ino_path_sets_path (ioc_ino_lookup : Z -> Z -> Z * string)
        (ri : root_info) (fragment : string) :
  path ri = None ->
  ioc_ino_lookup (ref_tree ri) (dir_id ri) = (0, fragment) ->
  (fragment = EmptyString ->
   lookup_ino_path ioc_ino_lookup ri = (0, set_path ri (name ri)))
  /\ (fragment <> EmptyString ->
      lookup_ino_path ioc_ino_lookup ri
      = (0, set_path ri (fragment ++ name ri)%string)).
Proof.
  intros P I. unfold lookup_ino_path. rewrite P, I. simpl.
  split; intros F.
  - now rewrite F.
  - destruct fragment; [contradiction | reflexivity].
Qed.

Lemma lookup_ino_path_sets_path_witness :
  lookup_ino_path lookup_in_dir (mk_root_info 256 5 256 None "snap1")
  = (0, mk_root_info 256 5 256 (Some "dir/snap1"%string) "snap1")
  /\ lookup_ino_path lookup_at_top (mk_root_info 256 5 256 None "snap1")
     = (0, mk_root_info 256 5 256 (Some "snap1"%string) "snap1").
Proof.
  split.
  - apply (proj2 (lookup_ino_path_sets_path lookup_in_dir
                    (mk_root_info 256 5 256 None "snap1") "dir/"%string
                    eq_refl eq_refl)).
    discriminate.
  - apply (proj1 (lookup_ino_path_sets_path lookup_at_top
                    (mk_root_info 256 5 256 None "snap1") EmptyString
                    eq_refl eq_refl)).
    reflexivity.
Defined.

(** ** The rebalancing of the Linux rbtree keeps the order *)

Lemma elements_set_color (c : rb_color) (t : rb_tree) :
  elements (rb_set_color c t) = elements t.
Proof. now destruct t. Qed.

Lemma elements_plug_congr (t t' : rb_tree) (up : rb_path) :
  elements t = elements t' -> elements (plug t up) = elements (plug t' up).
Proof. intros E. now rewrite !elements_plug, E. Qed.

Ltac flatten_apps :=
  simpl; repeat (rewrite <- app_assoc; simpl);
  rewrite ?elements_set_color; try reflexivity.

Lemma insert_fixup_elements (k : nat) : forall up c l e r,
  (List.length up <= k)%nat ->
  elements (insert_fixup c l e r up) = elements (plug (rb_node c l e r) up).
Proof.
  induction k as [|k IH]; intros up c l e r L.
  - destruct up; [reflexivity | simpl in L; lia].
  - destruct up as [|[pc pe pr|pc pl pe] up1]; [reflexivity | |];
      (destruct pc;
       [ destruct up1 as [|[gc ge uncle|gc uncle ge] up2]; [reflexivity | |];
         simpl insert_fixup; destruct (rb_is_red uncle);
         [ rewrite IH by (simpl in L; lia) | rewrite elements_set_color
         | rewrite IH by (simpl in L; lia) | rewrite elements_set_color ];
         simpl plug; apply elements_plug_congr; flatten_apps
       | simpl insert_fixup; rewrite elements_set_color; reflexivity ]).
Qed.

Lemma linux_keeps_order : keeps_order linux_rb_insert_color.
Proof.
  intros n. unfold linux_rb_insert_color, ptr_root, ptr_node.
  now apply (insert_fixup_elements (List.length (ptr_up n))).
Qed.

(** ** Uniqueness of the keys *)

Lemma tree_insert_walk_present (root : rb_tree) (i r : Z) :
  rb_ordered root -> In (i, r) (keys root) ->
  exists n, tree_insert_walk root [] i r = inl n.
Proof.
  intros S H. destruct (tree_insert_walk root [] i r) as [n|slot] eqn:W.
  - eauto.
  - exfalso.
    destruct (tree_insert_walk_slot (mk_root_info i r 0 None EmptyString)
                root [] i r slot eq_refl S W)
      as (X & Y & ER & _ & _ & HX & HY).
    unfold keys in H. rewrite ER in H. apply in_map_iff in H.
    destruct H as (x & Kx & Hx). apply in_app_or in Hx.
    destruct Hx as [Hx|Hx].
    + apply HX in Hx. apply above_key_neq in Hx. now apply Hx.
    + apply HY in Hx. apply above_key_neq in Hx. now apply Hx.
Qed.

(** C4.  Whatever sequence of insertions has built the index, no two of
    its records carry the same [(root_id, ref_tree)] key; and an insertion
    under a key that is present returns the node that carries the key and
    leaves the tree exactly as it was (the new record is not linked in, no
    entry is touched), upon which [add_root] gives up with [exit(1)]. *)
Theorem index_keys_unique (rb_insert_color : rb_ptr -> rb_tree)
        (t : rb_tree) :
  keeps_order rb_insert_color ->
  inserted rb_insert_color t ->
  NoDup (keys t)
  /\ forall i r node,
       In (i, r) (keys t) ->
       (exists n,
           tree_insert rb_insert_color t i r node = (Some n, t)
           /\ ptr_root n = t
           /\ In (ptr_entry n) (elements t)
           /\ key_of (ptr_entry n) = (i, r))
       /\ forall d nm len, add_root rb_insert_color t i r d nm len = Exit 1.
Proof.
  intros K I. pose proof (inserted_ordered rb_insert_color K t I) as S.
  split; [now apply sorted_keys_nodup|].
  intros i r node H.
  destruct (tree_insert_walk_present t i r S H) as (n & W).
  destruct (tree_insert_walk_found _ _ _ _ _ W) as (Kn & R). simpl in R.
  split.
  - exists n. unfold tree_insert. rewrite W. repeat split; trivial.
    rewrite <- R at 1. rewrite elements_ptr_root.
    apply in_or_app. simpl. auto.
  - intros d nm len. unfold add_root, tree_insert. now rewrite W.
Qed.

Lemma scenario_built_inserted : inserted linux_rb_insert_color scenario_built.
Proof.
  unfold scenario_built.
  repeat (apply inserted_step; [|reflexivity]). apply inserted_init.
Qed.

Lemma index_keys_unique_witness :
  NoDup (keys scenario_built)
  /\ (exists n,
         tree_insert linux_rb_insert_color scenario_built 256 5
           (new_root_info 256 5 256 "again" 5)
         = (Some n, scenario_built)
         /\ ptr_root n = scenario_built
         /\ In (ptr_entry n) (elements scenario_built)
         /\ key_of (ptr_entry n) = (256, 5))
  /\ add_root linux_rb_insert_color scenario_built 256 5 256 "again" 5
     = Exit 1.
Proof.
  destruct (index_keys_unique linux_rb_insert_color scenario_built
              linux_keeps_order scenario_built_inserted) as (U & D).
  destruct (D 256 5 (new_root_info 256 5 256 "again" 5)) as (E & X).
  - vm_compute. auto.
  - repeat split; trivial.
Defined.

(** ** The build loop *)

Section Build.

Variable rb_insert_color : rb_ptr -> rb_tree.
Hypothesis rb_insert_color_keeps : keeps_order rb_insert_color.
Variable ioc_tree_search : btrfs_ioctl_search_key -> Z * list search_item.

Lemma add_root_fresh (root root' : rb_tree) (i r d : Z) (nm : string)
      (len : nat) :
  fresh_index root ->
  add_root rb_insert_color root i r d nm len = Ok root' ->
  fresh_index root'.
Proof.
  intros (S & P) H. unfold add_root in H.
  destruct (tree_insert_spec rb_insert_color rb_insert_color_keeps
              root i r (new_root_info i r d nm len) S eq_refl)
    as [(n & E & _)|(t & X & Y & E & ER & ET & S' & _)];
    rewrite E in H; [discriminate|].
  injection H as <-. split; trivial.
  rewrite ET. rewrite ER in P. apply Forall_app in P. destruct P as (PX & PY).
  apply Forall_app. split; trivial. constructor; trivial.
Qed.

Lemma scan_items_fresh (items : list search_item) :
  forall root sk root' sk',
  fresh_index root ->
  scan_items rb_insert_color root sk items = Ok (root', sk') ->
  fresh_index root'.
Proof.
  induction items as [|sh rest IH]; intros root sk root' sk' F H;
    simpl in H.
  - now injection H as <- _.
  - destruct (add_root rb_insert_color root (sh_objectid sh) (sh_offset sh)
                (ref_dirid sh) (ref_name sh) (ref_name_len sh))
      as [t| | |] eqn:A; simpl in H; try discriminate.
    eapply IH; [|exact H]. eapply add_root_fresh; eauto.
Qed.

Lemma build_loop_fresh (fuel : nat) : forall root sk ret root',
  fresh_index root ->
  build_loop rb_insert_color ioc_tree_search fuel root sk
  = Ok (inr (ret, root')) ->
  fresh_index root'.
Proof.
  induction fuel as [|fuel IH]; intros root sk ret root' F H; simpl in H.
  - discriminate.
  - destruct (ioc_tree_search sk) as (r, items).
    destruct (r <? 0); [discriminate|].
    destruct items as [|sh rest].
    + now injection H as _ <-.
    + destruct (scan_items rb_insert_color root sk (sh :: rest))
        as [[t sk']| | |] eqn:SC; try discriminate.
      cbn [bind fst snd] in H.
      pose proof (scan_items_fresh _ _ _ _ _ F SC) as F'.
      destruct (min_objectid sk' <? u64_max).
      * eapply IH; eauto.
      * now injection H as _ <-.
Qed.

Lemma fresh_index_init : fresh_index root_lookup_init.
Proof. split; constructor. Qed.

End Build.

(** ** The resolve phase *)

Section Resolve.

Variable ioc_ino_lookup : Z -> Z -> Z * string.

Let lk := lookup_ino_path ioc_ino_lookup.

Lemma lookup_ino_path_key (ri : root_info) : key_of (snd (lk ri)) = key_of ri.
Proof.
  unfold lk, lookup_ino_path. destruct (path ri); trivial.
  destruct (ioc_ino_lookup (ref_tree ri) (dir_id ri)) as (ret, nm).
  destruct (negb (ret =? 0)); trivial. now destruct nm.
Qed.

Lemma fill_list_keys (l : list root_info) :
  map key_of (snd (fill_list lk l)) = map key_of l.
Proof.
  induction l as [|e l IH]; simpl; trivial.
  pose proof (lookup_ino_path_key e) as K.
  destruct (lk e) as (ret, e'). simpl in K.
  destruct (ret <? 0); simpl; [now rewrite K|].
  destruct (fill_list lk l) as (r, l''). simpl in *. now rewrite K, IH.
Qed.

(** The loop does to the tree what [fill_list] does to the records from
    the pointer on, unless the fuel runs out. *)
Lemma fill_paths_spec (fuel : nat) : forall n root0,
  fill_paths ioc_ino_lookup fuel root0 (Some n) = Timeout
  \/ exists root',
       fill_paths ioc_ino_lookup fuel root0 (Some n)
       = Ok (fst (fill_list lk (ptr_entry n :: ptr_after n)), root')
       /\ elements root'
          = ptr_before n ++ snd (fill_list lk (ptr_entry n :: ptr_after n)).
Proof.
  induction fuel as [|fuel IH]; intros n root0; [now left|].
  simpl. fold lk. destruct (lk (ptr_entry n)) as (ret, e').
  destruct (ret <? 0).
  - right. eexists. split; [reflexivity|]. simpl.
    now rewrite elements_ptr_root.
  - destruct (rb_next (ptr_store n e')) as [m|] eqn:N.
    + destruct (rb_next_some _ _ N) as (R & B & A).
      rewrite ptr_store_before in B. rewrite ptr_store_after in A.
      destruct (IH m (ptr_root (ptr_store n e'))) as [T|(root' & E & EL)];
        [now left|right].
      rewrite A in E, EL. rewrite E.
      destruct (fill_list lk (ptr_after n)) as (r, l''). simpl in *.
      eexists. split; [reflexivity|]. rewrite EL, B, <- app_assoc.
      reflexivity.
    + apply rb_next_none in N. rewrite ptr_store_after in N.
      right. rewrite N. destruct fuel; simpl;
        (eexists; split; [reflexivity|]);
        now rewrite elements_ptr_root, ptr_store_after, N.
Qed.

Lemma fill_paths_enough (fuel : nat) : forall n root0,
  (List.length (ptr_after n) < fuel)%nat ->
  fill_paths ioc_ino_lookup fuel root0 (Some n) <> Timeout.
Proof.
  induction fuel as [|fuel IH]; intros n root0 L; [lia|].
  simpl. destruct (lookup_ino_path ioc_ino_lookup (ptr_entry n)) as (ret, e').
  destruct (ret <? 0); [discriminate|].
  destruct (rb_next (ptr_store n e')) as [m|] eqn:N.
  - destruct (rb_next_some _ _ N) as (_ & _ & A).
    rewrite ptr_store_after in A. apply IH.
    rewrite <- A in L. simpl in L. lia.
  - destruct fuel; discriminate.
Qed.

(** The whole phase, from [rb_first]. *)
Lemma fill_paths_first (fuel : nat) (root : rb_tree) :
  fill_paths ioc_ino_lookup fuel root (rb_first root) = Timeout
  \/ exists root',
       fill_paths ioc_ino_lookup fuel root (rb_first root)
       = Ok (fst (fill_list lk (elements root)), root')
       /\ elements root' = snd (fill_list lk (elements root)).
Proof.
  destruct (rb_first root) as [n|] eqn:F.
  - destruct (rb_first_some _ _ F) as (R & B & A).
    destruct (fill_paths_spec fuel n root) as [T|(root' & E & EL)];
      [now left|right].
    rewrite A, B in *. eauto.
  - apply leftmost_none in F. subst root. right.
    exists rb_nil. destruct fuel; simpl; auto.
Qed.

Lemma fill_paths_first_enough (fuel : nat) (root : rb_tree) :
  (rb_count root <= fuel)%nat ->
  fill_paths ioc_ino_lookup fuel root (rb_first root) <> Timeout.
Proof.
  intros L. destruct (rb_first root) as [n|] eqn:F.
  - destruct (rb_first_some _ _ F) as (R & B & A).
    apply fill_paths_enough.
    rewrite <- length_elements, <- A in L. simpl in L. lia.
  - destruct fuel; discriminate.
Qed.

End Resolve.

Lemma sorted_same_keys (l l' : list root_info) :
  map key_of l = map key_of l' ->
  StronglySorted above l -> StronglySorted above l'.
Proof.
  revert l'. induction l as [|a l IH]; intros [|a' l'] E S;
    try discriminate; [constructor|].
  simpl in E. injection E as E1 E2 El.
  inversion S as [|? ? S' F]; subst. constructor; [now apply IH|].
  rewrite Forall_forall in *. intros y' Hy'.
  assert (Ky : In (key_of y') (map key_of l)).
  { rewrite El. now apply in_map. }
  apply in_map_iff in Ky. destruct Ky as (y & Ky & Hy).
  specialize (F y Hy). unfold key_of in Ky.
  assert (root_id y = root_id y' /\ ref_tree y = ref_tree y') as (E3 & E4)
    by (split; congruence).
  unfold above in *. lia.
Qed.

(** ** The stitch phase *)

Lemma upto_rb_prev (n : rb_ptr) : upto (rb_prev n) = ptr_before n.
Proof.
  destruct (rb_prev n) as [m|] eqn:P; simpl.
  - now destruct (rb_prev_some _ _ P) as (_ & B & _).
  - symmetry. now apply rb_prev_none.
Qed.

Lemma upto_rb_last (root : rb_tree) : upto (rb_last root) = elements root.
Proof.
  destruct (rb_last root) as [n|] eqn:L; simpl.
  - now destruct (rb_last_some _ _ L) as (_ & _ & B).
  - apply rightmost_none in L. now subst root.
Qed.

Lemma resolve_root_id (fuel : nat) (rl : rb_tree) (ri : root_info)
      (line : report) :
  resolve_root fuel rl ri = Ok line -> report_id line = root_id ri.
Proof.
  unfold resolve_root.
  destruct (resolve_root_loop fuel rl ri None); simpl; try discriminate.
  now intros [= <-].
Qed.

(** The lines come out in the order of the walk: from the rightmost
    record of the index to the leftmost. *)
Lemma stitch_ids (fuel : nat) : forall rl n out,
  stitch fuel rl n = Ok out ->
  map report_id out = rev (map root_id (upto n)).
Proof.
  induction fuel as [|fuel IH]; intros rl [n|] out H; simpl in H;
    try discriminate; try (now injection H as <-).
  destruct (resolve_root fuel rl (ptr_entry n)) as [line| | |] eqn:R;
    simpl in H; try discriminate.
  destruct (stitch fuel rl (rb_prev n)) as [rest| | |] eqn:ST;
    simpl in H; try discriminate.
  injection H as <-. apply IH in ST. rewrite upto_rb_prev in ST.
  simpl. rewrite map_app, rev_app_distr. simpl.
  now rewrite (resolve_root_id _ _ _ _ R), ST.
Qed.

Lemma ordered_ids_ascending (root : rb_tree) :
  rb_ordered root -> StronglySorted Z.le (rev (map root_id (elements root))).
Proof.
  intros S. rewrite <- map_rev.
  apply sorted_map with (R := fun x y => above y x).
  - unfold above. intros x y. lia.
  - now apply sorted_rev.
Qed.

Lemma map_root_id_keys (l l' : list root_info) :
  map key_of l = map key_of l' -> map root_id l = map root_id l'.
Proof.
  intros E. apply (f_equal (map fst)) in E. rewrite !map_map in E.
  exact E.
Qed.

(** C1 (as the code has it).  Whenever [list_subvols] returns, the lines
    it has printed are in ASCENDING order of subvolume id: each reported
    id is at most the next one.  When lines were printed there is one per
    record of the index the build loop left, in the order of the walk from
    [rb_last] along [rb_prev], that is from the smallest key to the
    largest. *)
Theorem list_subvols_reports_ascending
        (rb_insert_color : rb_ptr -> rb_tree)
        (ioc_tree_search : btrfs_ioctl_search_key -> Z * list search_item)
        (ioc_ino_lookup : Z -> Z -> Z * string)
        (fuel : nat) (ret : Z) (out : list report) :
  keeps_order rb_insert_color ->
  list_subvols rb_insert_color ioc_tree_search ioc_ino_lookup fuel
  = Ok (ret, out) ->
  StronglySorted Z.le (map report_id out)
  /\ (out <> [] ->
      exists root,
        built_index (build_loop rb_insert_color ioc_tree_search fuel
                       root_lookup_init initial_search_key) = Some root
        /\ map report_id out = rev (map root_id (elements root))).
Proof.
  intros K H. unfold list_subvols in H.
  destruct (build_loop rb_insert_color ioc_tree_search fuel root_lookup_init
              initial_search_key) as [[r|(r, root)]| | |] eqn:B;
    simpl in H; try discriminate.
  { injection H as _ <-. split; [constructor | congruence]. }
  pose proof (build_loop_fresh rb_insert_color K ioc_tree_search fuel _ _ _ _
                (fresh_index_init) B) as (S & _).
  destruct (fill_paths_first ioc_ino_lookup fuel root)
    as [T|(root' & E & EL)]; rewrite ?T, ?E in H; simpl in H;
    try discriminate.
  destruct (fst (fill_list (lookup_ino_path ioc_ino_lookup) (elements root)))
    as [r'|].
  { injection H as _ <-. split; [constructor | congruence]. }
  destruct (stitch fuel root' (rb_last root')) as [out'| | |] eqn:ST;
    simpl in H; try discriminate.
  injection H as _ <-. apply stitch_ids in ST. rewrite upto_rb_last in ST.
  assert (IDS : map root_id (elements root') = map root_id (elements root)).
  { apply map_root_id_keys. rewrite EL. apply fill_list_keys. }
  rewrite IDS in ST. split.
  - rewrite ST. now apply ordered_ids_ascending.
  - intros _. exists root. simpl. auto.
Qed.

Lemma list_subvols_reports_ascending_witness :
  StronglySorted Z.le [5; 256; 257]
  /\ exists root,
       built_index (build_loop linux_rb_insert_color
                      (enumerator 4096 scenario_records) 10
                      root_lookup_init initial_search_key) = Some root
       /\ [5; 256; 257] = rev (map root_id (elements root)).
Proof.
  destruct (list_subvols_reports_ascending linux_rb_insert_color
              (enumerator 4096 scenario_records) lookup_at_top 10 0
              [ mk_report 5 5 "toplevel"; mk_report 256 5 "toplevel/snap1";
                mk_report 257 5 "toplevel/snap1/nested" ]) as (S & R).
  - exact linux_keeps_order.
  - vm_compute. reflexivity.
  - split; [exact S|]. apply R. discriminate.
Defined.

(** C1, as the claim states it, fails on the scenario of three nested
    subvolumes: the lines come out for 5, 256, 257, and 5 is not larger
    than 256. *)
Lemma list_subvols_not_descending :
  list_subvols linux_rb_insert_color (enumerator 4096 scenario_records)
    lookup_at_top 10
  = Ok (0, [ mk_report 5 5 "toplevel"; mk_report 256 5 "toplevel/snap1";
             mk_report 257 5 "toplevel/snap1/nested" ])
  /\ ~ StronglySorted Z.gt
       (map report_id
          [ mk_report 5 5 "toplevel"; mk_report 256 5 "toplevel/snap1";
            mk_report 257 5 "toplevel/snap1/nested" ]).
Proof.
  split; [vm_compute; reflexivity|].
  simpl. intros S. inversion S as [|? ? _ F]; subst.
  inversion F as [|? ? G _]; subst. lia.
Qed.

(** ** A failing path lookup *)

Section Lookup_failure.

Variable ioc_ino_lookup : Z -> Z -> Z * string.

Let lk := lookup_ino_path ioc_ino_lookup.

Lemma lookup_ino_path_ret (ri : root_info) :
  path ri = None ->
  fst (lk ri) = fst (ioc_ino_lookup (ref_tree ri) (dir_id ri)).
Proof.
  intros P. unfold lk, lookup_ino_path. rewrite P.
  destruct (ioc_ino_lookup (ref_tree ri) (dir_id ri)) as (ret, nm).
  destruct (Z.eqb_spec ret 0) as [->|N]; simpl; trivial. now destruct nm.
Qed.

Lemma lookup_ino_path_failed (ri : root_info) :
  path ri = None ->
  fst (ioc_ino_lookup (ref_tree ri) (dir_id ri)) < 0 ->
  lk ri = (fst (ioc_ino_lookup (ref_tree ri) (dir_id ri)), ri).
Proof.
  intros P N. unfold lk, lookup_ino_path. rewrite P.
  destruct (ioc_ino_lookup (ref_tree ri) (dir_id ri)) as (ret, nm).
  simpl in *. destruct (Z.eqb_spec ret 0); [lia | reflexivity].
Qed.

(** Up to the first lookup that fails the records are resolved one by
    one; from there on nothing is touched. *)
Lemma fill_list_failure (pre post : list root_info) (e : root_info) :
  Forall (fun x => path x = None) (pre ++ e :: post) ->
  (forall x, In x pre ->
             0 <= fst (ioc_ino_lookup (ref_tree x) (dir_id x))) ->
  fst (ioc_ino_lookup (ref_tree e) (dir_id e)) < 0 ->
  fill_list lk (pre ++ e :: post)
  = (Some (fst (ioc_ino_lookup (ref_tree e) (dir_id e))),
     map (fun x => snd (lk x)) pre ++ e :: post).
Proof.
  intros P OKs N. induction pre as [|a pre IH]; simpl.
  - apply Forall_inv in P. rewrite (lookup_ino_path_failed e P N).
    apply Z.ltb_lt in N. now rewrite N.
  - simpl in P. inversion P as [|? ? Pa P']; subst.
    pose proof (lookup_ino_path_ret a Pa) as Ra.
    destruct (lk a) as (ret, a'). simpl in *.
    assert (Hret : (ret <? 0) = false).
    { apply Z.ltb_ge. rewrite Ra. apply OKs. auto. }
    rewrite Hret, IH; auto.
Qed.

End Lookup_failure.

(** The listing stops at the first lookup that fails.  Let the build loop
    leave an index whose records are, in the order of the resolve phase,
    [pre], then [e], then [post], and let the path lookup fail (return a
    negative value) for [e] and not before.  Then [list_subvols] returns
    that value and has printed nothing: the walk stops at [e], the records
    of [pre] are the only ones resolved, and [e] and those after it are
    left with an unset [path]. *)
Lemma list_subvols_first_lookup_failure
      (rb_insert_color : rb_ptr -> rb_tree)
      (ioc_tree_search : btrfs_ioctl_search_key -> Z * list search_item)
      (ioc_ino_lookup : Z -> Z -> Z * string)
      (fuel : nat) (ret0 : Z) (root : rb_tree)
      (pre post : list root_info) (e : root_info) :
  keeps_order rb_insert_color ->
  build_loop rb_insert_color ioc_tree_search fuel root_lookup_init
    initial_search_key = Ok (inr (ret0, root)) ->
  (rb_count root <= fuel)%nat ->
  elements root = pre ++ e :: post ->
  (forall x, In x pre -> 0 <= fst (ioc_ino_lookup (ref_tree x) (dir_id x))) ->
  fst (ioc_ino_lookup (ref_tree e) (dir_id e)) < 0 ->
  list_subvols rb_insert_color ioc_tree_search ioc_ino_lookup fuel
  = Ok (fst (ioc_ino_lookup (ref_tree e) (dir_id e)), [])
  /\ exists root',
       fill_paths ioc_ino_lookup fuel root (rb_first root)
       = Ok (Some (fst (ioc_ino_lookup (ref_tree e) (dir_id e))), root')
       /\ elements root'
          = map (fun x => snd (lookup_ino_path ioc_ino_lookup x)) pre
            ++ e :: post
       /\ Forall (fun x => path x = None) (e :: post).
Proof.
  intros K B L EL OKs N.
  pose proof (build_loop_fresh rb_insert_color K ioc_tree_search fuel _ _ _ _
                (fresh_index_init) B) as (S & P).
  rewrite EL in P.
  pose proof (fill_list_failure ioc_ino_lookup pre post e P OKs N) as FL.
  destruct (fill_paths_first ioc_ino_lookup fuel root)
    as [T|(root' & E & ER)].
  { now apply fill_paths_first_enough in T. }
  rewrite EL, FL in E, ER. simpl in E, ER.
  split.
  - unfold list_subvols. rewrite B. simpl. rewrite E. reflexivity.
  - exists root'. repeat split; trivial. now apply Forall_app in P.
Qed.

Lemma first_failure (bad : root_info -> bool) (l : list root_info)
      (e : root_info) :
  In e l -> bad e = true ->
  exists pre e' post,
    l = pre ++ e' :: post
    /\ (forall x, In x pre -> bad x = false)
    /\ bad e' = true.
Proof.
  induction l as [|a l IH]; intros He Hb; [destruct He|].
  destruct (bad a) eqn:Ba.
  - exists [], a, l. repeat split; trivial. intros x [].
  - destruct He as [->|He]; [congruence|].
    destruct (IH He Hb) as (pre & e' & post & -> & Hpre & He').
    exists (a :: pre), e', post. repeat split; trivial.
    intros x [<-|Hx]; auto.
Qed.

(** C9.  If, once the index is built, the path lookup fails (returns a
    negative value) for some record of it, then [list_subvols] returns the
    value of the first lookup that fails, in the order of the resolve
    phase, and has printed nothing: the records before that one are the
    only ones resolved, that one and those after it are left with an unset
    [path], and the stitch phase is not run. *)
Theorem list_subvols_lookup_failure
        (rb_insert_color : rb_ptr -> rb_tree)
        (ioc_tree_search : btrfs_ioctl_search_key -> Z * list search_item)
        (ioc_ino_lookup : Z -> Z -> Z * string)
        (fuel : nat) (ret0 : Z) (root : rb_tree) (e : root_info) :
  keeps_order rb_insert_color ->
  build_loop rb_insert_color ioc_tree_search fuel root_lookup_init
    initial_search_key = Ok (inr (ret0, root)) ->
  (rb_count root <= fuel)%nat ->
  In e (elements root) ->
  fst (ioc_ino_lookup (ref_tree e) (dir_id e)) < 0 ->
  exists pre e' post,
    elements root = pre ++ e' :: post
    /\ fst (ioc_ino_lookup (ref_tree e') (dir_id e')) < 0
    /\ list_subvols rb_insert_color ioc_tree_search ioc_ino_lookup fuel
       = Ok (fst (ioc_ino_lookup (ref_tree e') (dir_id e')), [])
    /\ exists root',
         fill_paths ioc_ino_lookup fuel root (rb_first root)
         = Ok (Some (fst (ioc_ino_lookup (ref_tree e') (dir_id e'))), root')
         /\ elements root'
            = map (fun x => snd (lookup_ino_path ioc_ino_lookup x)) pre
              ++ e' :: post
         /\ Forall (fun x => path x = None) (e' :: post).
Proof.
  intros K B L He N.
  destruct (first_failure
              (fun x => fst (ioc_ino_lookup (ref_tree x) (dir_id x)) <? 0)
              (elements root) e He) as (pre & e' & post & EL & Hpre & He').
  { now apply Z.ltb_lt. }
  apply Z.ltb_lt in He'.
  exists pre, e', post. repeat split; trivial;
    destruct (list_subvols_first_lookup_failure rb_insert_color
                ioc_tree_search ioc_ino_lookup fuel ret0 root pre post e'
                K B L EL) as (R & root' & F & ER & P); trivial;
    try (intros x Hx; apply Z.ltb_ge; auto).
  exists root'. auto.
Qed.

Lemma list_subvols_lookup_failure_witness :
  exists pre e' post,
    elements scenario_built = pre ++ e' :: post
    /\ fst (lookup_fails_for_snap1 (ref_tree e') (dir_id e')) < 0
    /\ list_subvols linux_rb_insert_color (enumerator 4096 scenario_records)
         lookup_fails_for_snap1 10
       = Ok (fst (lookup_fails_for_snap1 (ref_tree e') (dir_id e')), [])
    /\ exists root',
         fill_paths lookup_fails_for_snap1 10 scenario_built
           (rb_first scenario_built)
         = Ok (Some (fst (lookup_fails_for_snap1 (ref_tree e') (dir_id e'))),
               root')
         /\ elements root'
            = map (fun x => snd (lookup_ino_path lookup_fails_for_snap1 x))
                pre
              ++ e' :: post
         /\ Forall (fun x => path x = None) (e' :: post).
Proof.
  apply (list_subvols_lookup_failure linux_rb_insert_color
           (enumerator 4096 scenario_records) lookup_fails_for_snap1
           10 0 scenario_built (new_root_info 256 5 256 "snap1" 5)).
  - exact linux_keeps_order.
  - vm_compute. reflexivity.
  - vm_compute. lia.
  - vm_compute. auto.
  - vm_compute. reflexivity.
Defined.

(** ** What [tree_search] returns among several records of one subvolume *)

Lemma find_largest_parent (l : list root_info) (e e' : root_info) :
  StronglySorted above l -> In e l ->
  find (has_root_id (root_id e)) l = Some e' ->
  ref_tree e <= ref_tree e'.
Proof.
  induction l as [|a l IH]; intros S He F; [destruct He|].
  inversion S as [|? ? S' Fa]; subst. rewrite Forall_forall in Fa.
  simpl in F. destruct (has_root_id (root_id e) a) eqn:Ha.
  - injection F as ->. unfold has_root_id in Ha. apply Z.eqb_eq in Ha.
    destruct He as [<-|He]; [lia|].
    apply Fa in He. unfold above in He. lia.
  - destruct He as [<-|He].
    + unfold has_root_id in Ha. now rewrite Z.eqb_refl in Ha.
    + now apply IH.
Qed.

(** Among the records of the subvolume, [tree_search] returns the one with
    the LARGEST [ref_tree]: the keys go down from left to right, and the
    inner loop walks to the leftmost record of the subvolume. *)
Lemma tree_search_largest_parent (fuel : nat) (rl : rb_tree) (e : root_info) :
  rb_ordered rl -> (rb_count rl <= fuel)%nat ->
  In e (elements rl) ->
  exists e',
    tree_search fuel rl (root_id e) = Ok (Some e')
    /\ In e' (elements rl)
    /\ root_id e' = root_id e
    /\ ref_tree e <= ref_tree e'.
Proof.
  intros S L He. rewrite tree_search_find by trivial.
  destruct (find (has_root_id (root_id e)) (elements rl)) as [e'|] eqn:F.
  - exists e'. pose proof (find_some _ _ F) as (He' & Hid).
    unfold has_root_id in Hid. apply Z.eqb_eq in Hid.
    repeat split; trivial. eapply find_largest_parent; eauto.
  - apply (find_none _ _ F) in He. unfold has_root_id in He.
    now rewrite Z.eqb_refl in He.
Qed.

(** C2, on an index with two records of subvolume 257: [tree_search]
    returns the record whose [ref_tree] is 256, while the record whose
    [ref_tree] is 5, the smallest, is in the index as well. *)
Theorem tree_search_two_parents :
  tree_search 2 two_parent_index 257
  = Ok (Some (new_root_info 257 256 256 "snap" 4))
  /\ In (new_root_info 257 5 256 "snap" 4) (elements two_parent_index)
  /\ inserted linux_rb_insert_color two_parent_index.
Proof.
  split; [vm_compute; reflexivity|]. split.
  - vm_compute. auto.
  - unfold two_parent_index.
    repeat (apply inserted_step; [|reflexivity]). apply inserted_init.
Qed.

(** ** Batches *)

(** C3, on a filesystem with the backreferences (256, 5), (257, 256) and
    (258, 5): when the first batch ends after two records the cursor
    becomes (258, type, 256), the record (258, 5) lies below it, and the
    index misses subvolume 258, which a single batch delivers. *)
Theorem build_loop_batches_drop_record :
  option_map keys
    (built_index (build_loop linux_rb_insert_color
                    (enumerator 2 paged_records) 10
                    root_lookup_init initial_search_key))
  = Some [(257, 256); (256, 5)]
  /\ option_map keys
       (built_index (build_loop linux_rb_insert_color
                       (enumerator 4096 paged_records) 10
                       root_lookup_init initial_search_key))
     = Some [(258, 5); (257, 256); (256, 5)].
Proof. split; vm_compute; reflexivity. Qed.

(** ** The memory model against the functional model *)

Section Map_facts.

Context {P Q : Type}.
Variable f : root_info_of P -> root_info_of Q.
Hypothesis f_root_id : forall e, root_id (f e) = root_id e.

Lemma rightmost_map (t : rb_tree_of P) : forall up,
  rightmost (map_tree f t) (map (map_step f) up)
  = option_map (map_ptr f) (rightmost t up).
Proof.
  induction t as [|c l IHl e r IHr]; intros up; simpl; trivial.
  specialize (IHr (from_right c l e :: up)). simpl in IHr. rewrite IHr.
  now destruct (rightmost r (from_right c l e :: up)).
Qed.

Lemma climb_prev_map (up : rb_path_of P) : forall t,
  climb_prev (map_tree f t) (map (map_step f) up)
  = option_map (map_ptr f) (climb_prev t up).
Proof.
  induction up as [|[c e r|c l e] up IH]; intros t; simpl; trivial.
  apply (IH (rb_node c t e r)).
Qed.

Lemma rb_prev_map (n : rb_ptr_of P) :
  rb_prev (map_ptr f n) = option_map (map_ptr f) (rb_prev n).
Proof.
  unfold rb_prev. simpl.
  pose proof (rightmost_map (ptr_left n)
                (from_left (ptr_color n) (ptr_entry n) (ptr_right n)
                   :: ptr_up n)) as R.
  simpl in R. rewrite R.
  destruct (rightmost (ptr_left n) _); simpl; trivial.
  apply (climb_prev_map (ptr_up n) (ptr_node n)).
Qed.

Lemma tree_search_walk_map (t : rb_tree_of P) : forall up id,
  tree_search_walk (map_tree f t) (map (map_step f) up) id
  = option_map (map_ptr f) (tree_search_walk t up id).
Proof.
  induction t as [|c l IHl e r IHr]; intros up id; simpl; trivial.
  rewrite f_root_id.
  destruct (root_id e <? id); [apply (IHl (from_left c e r :: up))|].
  destruct (root_id e >? id); [apply (IHr (from_right c l e :: up))|].
  reflexivity.
Qed.

Lemma tree_search_back_map (fuel : nat) : forall (n : rb_ptr_of P) id,
  tree_search_back fuel (map_ptr f n) id
  = map_result f (tree_search_back fuel n id).
Proof.
  induction fuel as [|fuel IH]; intros n id; simpl; trivial.
  rewrite rb_prev_map. destruct (rb_prev n) as [m|]; simpl; trivial.
  rewrite f_root_id.
  destruct (negb (root_id (ptr_entry m) =? id)); trivial.
Qed.

Lemma tree_search_map (fuel : nat) (t : rb_tree_of P) (id : Z) :
  tree_search fuel (map_tree f t) id
  = map_result (option_map f) (tree_search fuel t id).
Proof.
  unfold tree_search.
  pose proof (tree_search_walk_map t [] id) as W. simpl in W. rewrite W.
  destruct (tree_search_walk t [] id) as [n|]; simpl; trivial.
  rewrite tree_search_back_map.
  now destruct (tree_search_back fuel n id).
Qed.

End Map_facts.

(** ** [resolve_root] and the memory of the index *)

Lemma mem_load_store (h : Mem.heap) (a b : Mem.addr) (s : string) :
  Mem.load (Mem.store h a s) b = if Nat.eqb b a then Some s else Mem.load h b.
Proof. reflexivity. Qed.

Lemma mem_load_free (h : Mem.heap) (a b : Mem.addr) :
  Mem.load (Mem.free h a) b = if Nat.eqb b a then None else Mem.load h b.
Proof.
  induction h as [|(c, s) h IH]; simpl.
  - now destruct (Nat.eqb b a).
  - destruct (Nat.eqb_spec c a) as [->|N]; simpl.
    + rewrite IH. destruct (Nat.eqb_spec b a); trivial.
    + rewrite IH. destruct (Nat.eqb_spec b c) as [->|N']; trivial.
      destruct (Nat.eqb_spec c a); [contradiction | reflexivity].
Qed.

Lemma mem_load_bound (h : Mem.heap) (a : Mem.addr) :
  Mem.load h a <> None -> (a <= fold_right Nat.max 0 (map fst h))%nat.
Proof.
  induction h as [|(c, s) h IH]; simpl; [congruence|].
  destruct (Nat.eqb_spec a c) as [->|N]; intros H; [lia|].
  apply IH in H. lia.
Qed.

Lemma mem_bump_fresh : Mem.fresh Mem.bump.
Proof.
  intros h. destruct (Mem.load h (Mem.bump h)) eqn:L; trivial.
  assert (B : Mem.load h (Mem.bump h) <> None) by congruence.
  apply mem_load_bound in B. unfold Mem.bump in B. lia.
Qed.

Section Mem_facts.

Variable malloc : Mem.heap -> Mem.addr.
Hypothesis malloc_fresh : Mem.fresh malloc.

Opaque Mem.free Mem.store.

(** One turn of the loop leaves the buffers of the initial heap [h0] alone
    and returns a buffer that is not one of them. *)
Lemma mem_prepend_spec (h0 h h1 : Mem.heap) (s : string)
      (fp : option Mem.addr) (a : Mem.addr) :
  Mem.preserves h0 h ->
  (forall b, fp = Some b -> Mem.load h0 b = None /\ Mem.load h b <> None) ->
  Mem.prepend malloc h s fp = Some (a, h1) ->
  Mem.preserves h0 h1
  /\ Mem.load h0 a = None
  /\ Mem.load h1 a
     = Some match match fp with
                  | Some b => Mem.load h b
                  | None => None
                  end with
            | Some sb => (s ++ "/" ++ sb)%string
            | None => s
            end.
Proof.
  intros Pr Hfp H. unfold Mem.prepend, Mem.alloc in H.
  pose proof (malloc_fresh h) as Ft.
  assert (T0 : Mem.load h0 (malloc h) = None).
  { destruct (Mem.load h0 (malloc h)) eqn:E; trivial.
    rewrite <- (Pr (malloc h)) in E by congruence. congruence. }
  destruct fp as [b|].
  - destruct (Hfp b eq_refl) as (B0 & Bh).
    assert (Nb : b <> malloc h) by congruence.
    rewrite mem_load_store in H.
    destruct (Nat.eqb_spec b (malloc h)); [contradiction|].
    destruct (Mem.load h b) as [sb|] eqn:Lb; [|discriminate].
    injection H as <- <-. repeat split; trivial.
    + intros x Hx. rewrite mem_load_free, !mem_load_store.
      destruct (Nat.eqb_spec x b) as [->|]; [contradiction|].
      destruct (Nat.eqb_spec x (malloc h)) as [->|]; [contradiction|].
      now apply Pr.
    + rewrite mem_load_free, mem_load_store.
      destruct (Nat.eqb_spec (malloc h) b); [congruence|].
      now rewrite Nat.eqb_refl.
  - unfold Mem.strdup, Mem.alloc in H. injection H as <- <-.
    pose proof (malloc_fresh (Mem.store h (malloc h) EmptyString)) as Fa.
    remember (malloc (Mem.store h (malloc h) EmptyString)) as a' eqn:Ea'.
    clear Ea'. rewrite mem_load_store in Fa.
    destruct (Nat.eqb_spec a' (malloc h)) as [|Na]; [discriminate|].
    assert (A0 : Mem.load h0 a' = None).
    { destruct (Mem.load h0 a') eqn:E; trivial.
      rewrite <- (Pr a') in E by congruence. congruence. }
    repeat split; trivial.
    + intros x Hx. rewrite !mem_load_store.
      destruct (Nat.eqb_spec x a') as [->|]; [contradiction|].
      destruct (Nat.eqb_spec x (malloc h)) as [->|]; [contradiction|].
      now apply Pr.
    + rewrite mem_load_store. now rewrite Nat.eqb_refl.
Qed.

(** The loop with its buffers leaves the buffers of the initial heap
    alone, and computes what the loop on strings computes on the index
    read through the initial heap. *)
Lemma mem_resolve_root_loop_spec (fuel : nat) (rl : rb_tree_of Mem.addr)
      (h0 : Mem.heap) :
  Mem.paths_allocated h0 rl ->
  forall found fp h top a h',
  (forall p, path found = Some p -> Mem.load h p = Mem.load h0 p) ->
  Mem.preserves h0 h ->
  (forall b, fp = Some b -> Mem.load h0 b = None /\ Mem.load h b <> None) ->
  Mem.resolve_root_loop malloc fuel rl found fp h = Ok (top, a, h') ->
  Mem.preserves h0 h'
  /\ Mem.load h0 a = None
  /\ exists s,
       Mem.load h' a = Some s
       /\ resolve_root_loop fuel (map_tree (Mem.deref h0) rl)
            (Mem.deref h0 found)
            (match fp with
             | Some b => Mem.load h b
             | None => None
             end)
          = Ok (top, s).
Proof.
  intros A. induction fuel as [|fuel IH];
    intros found fp h top a h' Hp Pr Hfp H; simpl in H; [discriminate|].
  simpl. destruct (path found) as [p|] eqn:Pf; [|discriminate H].
  rewrite <- (Hp p eq_refl).
  destruct (Mem.load h p) as [s|] eqn:Lp; [|discriminate H].
  destruct (Mem.prepend malloc h s fp) as [(a1, h1)|] eqn:PP;
    [|discriminate H].
  destruct (mem_prepend_spec h0 h h1 s fp a1 Pr Hfp PP) as (Pr1 & A1 & L1).
  destruct (ref_tree found =? root_id found).
  - injection H as <- <- <-. repeat split; trivial.
    eexists. split; [exact L1|]. reflexivity.
  - rewrite (tree_search_map (Mem.deref h0) (fun e => eq_refl)).
    destruct (tree_search fuel rl (ref_tree found)) as [[found'|]| | |] eqn:T;
      simpl in H; try discriminate H; simpl.
    + destruct (tree_search_in _ _ _ _ T) as (In' & _).
      destruct (IH found' (Some a1) h1 top a h') as (Pr' & A' & s' & Ls' & R);
        trivial.
      { intros p' Hp'. apply Pr1. eapply A; eauto. }
      { intros b [= <-]. split; [trivial | congruence]. }
      repeat split; trivial. exists s'. split; trivial.
      rewrite <- R, L1. reflexivity.
    + injection H as <- <- <-. repeat split; trivial.
      eexists. split; [exact L1|]. reflexivity.
Qed.

(** [Mem.resolve_root] prints the line that [resolve_root] prints for the
    index as it reads through the heap. *)
Lemma mem_resolve_root_refines (fuel : nat) (rl : rb_tree_of Mem.addr)
      (ri : root_info_of Mem.addr) (h h' : Mem.heap) (line : report) :
  Mem.paths_allocated h rl ->
  Mem.resolve_root malloc fuel rl ri h = Ok (line, h') ->
  resolve_root fuel (map_tree (Mem.deref h) rl) (Mem.deref h ri) = Ok line.
Proof.
  intros A H. unfold Mem.resolve_root in H.
  destruct (Mem.resolve_root_loop malloc fuel rl ri None h)
    as [[[top a] h1]| | |] eqn:L; simpl in H; try discriminate.
  destruct (mem_resolve_root_loop_spec fuel rl h A ri None h top a h1)
    as (_ & _ & s & Ls & R); trivial.
  { now intros a0 Ha0. }
  { discriminate. }
  rewrite Ls in H. injection H as <- _.
  unfold resolve_root. rewrite R. reflexivity.
Qed.

End Mem_facts.

Transparent Mem.free Mem.store.

(** C10.  Whatever unused addresses [malloc] picks, a call of
    [resolve_root] that returns has written to and freed only buffers it
    allocated itself.  So every record of the index reads after the call
    as it read before it: the same [root_id], [ref_tree], [dir_id] and
    [name], and the same string behind [path]; and the tree of records,
    which the function has no assignment to, is the same tree. *)
Theorem mem_resolve_root_frame (malloc : Mem.heap -> Mem.addr) (fuel : nat)
        (rl : rb_tree_of Mem.addr) (ri : root_info_of Mem.addr)
        (h h' : Mem.heap) (line : report) :
  Mem.fresh malloc ->
  Mem.paths_allocated h rl ->
  Mem.resolve_root malloc fuel rl ri h = Ok (line, h') ->
  Mem.preserves h h'
  /\ map (Mem.deref h') (elements rl) = map (Mem.deref h) (elements rl).
Proof.
  intros F A H. unfold Mem.resolve_root in H.
  destruct (Mem.resolve_root_loop malloc fuel rl ri None h)
    as [[[top a] h1]| | |] eqn:L; simpl in H; try discriminate.
  destruct (Mem.load h1 a) as [s|]; [|discriminate].
  injection H as _ <-.
  destruct (mem_resolve_root_loop_spec malloc F fuel rl h A ri None h top a h1)
    as (Pr1 & A0 & _); trivial.
  { now intros a0 Ha0. }
  { discriminate. }
  assert (Pr : Mem.preserves h (Mem.free h1 a)).
  { intros x Hx. rewrite mem_load_free.
    destruct (Nat.eqb_spec x a) as [->|]; [contradiction|]. now apply Pr1. }
  split; trivial. apply map_ext_in. intros e He.
  unfold Mem.deref. destruct (path e) as [p|] eqn:Pe; trivial.
  f_equal. apply Pr. eapply A; eauto.
Qed.

Lemma mem_scenario_allocated :
  Mem.paths_allocated Mem.scenario_heap Mem.scenario_index.
Proof.
  intros e a He Pe. simpl in He.
  destruct He as [<-|[<-|[<-|[]]]]; injection Pe as <-; discriminate.
Qed.

Lemma mem_resolve_root_frame_witness :
  exists h',
    Mem.resolve_root Mem.bump 5 Mem.scenario_index
      (mk_root_info 257 256 256 (Some 2%nat) "nested") Mem.scenario_heap
    = Ok (mk_report 257 5 "toplevel/snap1/nested", h')
    /\ Mem.preserves Mem.scenario_heap h'
    /\ map (Mem.deref h') (elements Mem.scenario_index)
       = map (Mem.deref Mem.scenario_heap) (elements Mem.scenario_index).
Proof.
  eexists. split; [vm_compute; reflexivity|].
  apply (mem_resolve_root_frame Mem.bump 5 Mem.scenario_index
           (mk_root_info 257 256 256 (Some 2%nat) "nested")
           Mem.scenario_heap _
           (mk_report 257 5 "toplevel/snap1/nested")).
  - exact mem_bump_fresh.
  - exact mem_scenario_allocated.
  - vm_compute. reflexivity.
Defined.

(** * Further properties of the code *)

(** ** [comp_entry] *)

(** X1.  [comp_entry] is the three-way comparison of the entry's key with
    the key given, [root_id] first and [ref_tree] second: 0 exactly when
    the keys are equal, 1 when the entry's key is the larger one, -1 when
    it is the smaller one; and exchanging the two sides negates the
    result. *)
Theorem comp_entry_three_way (e e' : root_info) (i r : Z) :
  (comp_entry e i r = 0 <-> key_of e = (i, r))
  /\ (comp_entry e i r = 1 <->
      root_id e > i \/ (root_id e = i /\ ref_tree e > r))
  /\ (comp_entry e i r = -1 <->
      root_id e < i \/ (root_id e = i /\ ref_tree e < r))
  /\ comp_entry e (root_id e') (ref_tree e')
     = - comp_entry e' (root_id e) (ref_tree e).
Proof.
  unfold comp_entry, key_of.
  destruct (Z.gtb_spec (root_id e) i), (Z.ltb_spec (root_id e) i),
    (Z.gtb_spec (ref_tree e) r), (Z.ltb_spec (ref_tree e) r);
    destruct (Z.gtb_spec (root_id e) (root_id e')),
      (Z.ltb_spec (root_id e) (root_id e')),
      (Z.gtb_spec (ref_tree e) (ref_tree e')),
      (Z.ltb_spec (ref_tree e) (ref_tree e')),
      (Z.gtb_spec (root_id e') (root_id e)),
      (Z.ltb_spec (root_id e') (root_id e)),
      (Z.gtb_spec (ref_tree e') (ref_tree e)),
      (Z.ltb_spec (ref_tree e') (ref_tree e));
    try lia;
    repeat split; intros; try lia; try discriminate;
      try (f_equal; lia);
      try match goal with
          | HH : (_, _) = (_, _) |- _ => injection HH as ? ?; lia
          end.
Qed.

(** ** [tree_search] *)

(** X2.  On an index that satisfies the ordering invariant, with fuel for
    its nodes, [tree_search] does not run out of fuel; it returns [NULL]
    exactly when no record carries the [root_id] asked for, and a record it
    returns is a record of the index with that [root_id]. *)
Theorem tree_search_null_iff_absent (fuel : nat) (rl : rb_tree) (id : Z) :
  rb_ordered rl -> (rb_count rl <= fuel)%nat ->
  (tree_search fuel rl id = Ok None <->
   forall e, In e (elements rl) -> root_id e <> id)
  /\ (forall e, tree_search fuel rl id = Ok (Some e) ->
                In e (elements rl) /\ root_id e = id)
  /\ (exists r, tree_search fuel rl id = Ok r).
Proof.
  intros S L. rewrite (tree_search_find fuel rl id S L).
  repeat split.
  - intros [= F] e He E.
    apply (find_none _ _ F) in He. unfold has_root_id in He.
    rewrite E, Z.eqb_refl in He. discriminate.
  - intros H. f_equal. apply find_none_iff. intros x Hx.
    unfold has_root_id. apply Z.eqb_neq. auto.
  - injection H as F. now apply find_some in F.
  - injection H as F. apply find_some in F. destruct F as (_ & F).
    unfold has_root_id in F. now apply Z.eqb_eq.
  - eauto.
Qed.

Lemma tree_search_null_iff_absent_witness :
  (tree_search 3 scenario_index 258 = Ok None <->
   forall e, In e (elements scenario_index) -> root_id e <> 258)
  /\ (forall e, tree_search 3 scenario_index 258 = Ok (Some e) ->
                In e (elements scenario_index) /\ root_id e = 258)
  /\ (exists r, tree_search 3 scenario_index 258 = Ok r).
Proof.
  apply (tree_search_null_iff_absent 3 scenario_index 258).
  - exact scenario_index_ordered.
  - vm_compute. lia.
Defined.

(** X3.  When several records of the index carry the [root_id] asked for,
    [tree_search] returns the one among them whose [ref_tree] is the
    largest; when there is one, it returns that one. *)
Theorem tree_search_among_ties (fuel : nat) (rl : rb_tree) (e : root_info) :
  rb_ordered rl -> (rb_count rl <= fuel)%nat ->
  In e (elements rl) ->
  exists e',
    tree_search fuel rl (root_id e) = Ok (Some e')
    /\ In e' (elements rl)
    /\ root_id e' = root_id e
    /\ (forall x, In x (elements rl) -> root_id x = root_id e ->
                  ref_tree x <= ref_tree e')
    /\ ((forall x, In x (elements rl) -> root_id x = root_id e -> x = e) ->
        e' = e).
Proof.
  intros S L He.
  destruct (tree_search_largest_parent fuel rl e S L He)
    as (e' & T & He' & Hid & _).
  exists e'. repeat split; trivial.
  - intros x Hx Ex.
    destruct (tree_search_largest_parent fuel rl x S L Hx)
      as (x' & Tx & _ & _ & Hle).
    rewrite Ex, T in Tx. injection Tx as <-. exact Hle.
  - intros U. now apply U.
Qed.

Lemma two_parent_index_ordered : rb_ordered two_parent_index.
Proof.
  apply (inserted_ordered linux_rb_insert_color linux_keeps_order).
  unfold two_parent_index.
  repeat (apply inserted_step; [|reflexivity]). apply inserted_init.
Qed.

Lemma tree_search_among_ties_witness :
  exists e',
    tree_search 2 two_parent_index 257 = Ok (Some e')
    /\ In e' (elements two_parent_index)
    /\ root_id e' = 257
    /\ (forall x, In x (elements two_parent_index) -> root_id x = 257 ->
                  ref_tree x <= ref_tree e')
    /\ ((forall x, In x (elements two_parent_index) -> root_id x = 257 ->
                   x = new_root_info 257 5 256 "snap" 4) ->
        e' = new_root_info 257 5 256 "snap" 4).
Proof.
  apply (tree_search_among_ties 2 two_parent_index
           (new_root_info 257 5 256 "snap" 4)).
  - exact two_parent_index_ordered.
  - vm_compute. lia.
  - vm_compute. auto.
Defined.

(** ** [tree_insert] and [add_root] *)

Lemma find_skip (A : Type) (f : A -> bool) (X Y : list A) (a : A) :
  f a = false -> find f (X ++ a :: Y) = find f (X ++ Y).
Proof.
  intros Fa. induction X as [|x X IH]; simpl.
  - now rewrite Fa.
  - now rewrite IH.
Qed.

Lemma keys_middle (X Y : list root_info) (node : root_info) (k : Z * Z) :
  In k (map key_of (X ++ node :: Y)) <->
  k = key_of node \/ In k (map key_of (X ++ Y)).
Proof.
  rewrite !map_app. simpl. rewrite !in_app_iff. simpl. intuition.
Qed.

(** X4.  Inserting under a key that is not in an ordered index links the
    new record in and returns [NULL]: afterwards the index holds the new
    record and the records it held before, each once and unchanged, it
    has one node more, and it is ordered again. *)
Theorem tree_insert_links_new_key (rb_insert_color : rb_ptr -> rb_tree)
        (root : rb_tree) (i r : Z) (node : root_info) :
  keeps_order rb_insert_color ->
  rb_ordered root ->
  key_of node = (i, r) ->
  ~ In (i, r) (keys root) ->
  exists root',
    tree_insert rb_insert_color root i r node = (None, root')
    /\ Permutation (node :: elements root) (elements root')
    /\ rb_count root' = S (rb_count root)
    /\ rb_ordered root'.
Proof.
  intros K S Kn A.
  destruct (tree_insert_spec rb_insert_color K root i r node S Kn)
    as [(n & _ & R & Kp)|(root' & X & Y & E & ER & ER' & S' & _)].
  - exfalso. apply A. unfold keys. rewrite <- Kp. apply in_map.
    rewrite <- R, elements_ptr_root. apply in_or_app. simpl. auto.
  - exists root'. repeat split; trivial.
    + rewrite ER, ER'. apply Permutation_middle.
    + rewrite <- !length_elements, ER, ER', !length_app. simpl. lia.
Qed.

Lemma tree_insert_links_new_key_witness :
  exists root',
    tree_insert linux_rb_insert_color scenario_built 258 5
      (new_root_info 258 5 256 "more" 4) = (None, root')
    /\ Permutation (new_root_info 258 5 256 "more" 4
                    :: elements scenario_built) (elements root')
    /\ rb_count root' = S (rb_count scenario_built)
    /\ rb_ordered root'.
Proof.
  apply (tree_insert_links_new_key linux_rb_insert_color scenario_built
           258 5 (new_root_info 258 5 256 "more" 4)).
  - exact linux_keeps_order.
  - exact (inserted_ordered linux_rb_insert_color linux_keeps_order
             scenario_built scenario_built_inserted).
  - reflexivity.
  - vm_compute. intros [H|[H|[H|[]]]]; discriminate H.
Defined.

(** X5.  After [add_root] has taken a record for subvolume [i], a search
    for [i] finds a record of that subvolume, whose [ref_tree] is at least
    the one just inserted; and a search for any other subvolume gives what
    it gave before the insertion. *)
Theorem add_root_then_tree_search (rb_insert_color : rb_ptr -> rb_tree)
        (root root' : rb_tree) (i r d : Z) (nm : string) (len fuel : nat) :
  keeps_order rb_insert_color ->
  rb_ordered root ->
  add_root rb_insert_color root i r d nm len = Ok root' ->
  (rb_count root' <= fuel)%nat ->
  (exists e, tree_search fuel root' i = Ok (Some e)
             /\ In e (elements root')
             /\ root_id e = i /\ r <= ref_tree e)
  /\ forall id, id <> i ->
       tree_search fuel root' id = tree_search fuel root id.
Proof.
  intros K S H L. unfold add_root in H.
  destruct (tree_insert_spec rb_insert_color K root i r
              (new_root_info i r d nm len) S eq_refl)
    as [(n & E & _)|(t & X & Y & E & ER & ET & S' & _)];
    rewrite E in H; [discriminate|]. injection H as <-.
  assert (C : (rb_count root <= fuel)%nat).
  { rewrite <- length_elements in *. rewrite ET, length_app in L.
    rewrite ER, length_app. simpl in L. lia. }
  split.
  - destruct (tree_search_largest_parent fuel t
                (new_root_info i r d nm len) S' L)
      as (e & T & He & Hid & Hle).
    { rewrite ET. apply in_or_app. simpl. auto. }
    exists e. auto.
  - intros id N. rewrite !tree_search_find by trivial.
    rewrite ET, ER. f_equal. apply find_skip.
    unfold has_root_id. simpl. now apply Z.eqb_neq.
Qed.

Lemma add_root_then_tree_search_witness :
  (exists e, tree_search 3 scenario_built 257 = Ok (Some e)
             /\ In e (elements scenario_built)
             /\ root_id e = 257 /\ 256 <= ref_tree e)
  /\ forall id, id <> 257 ->
       tree_search 3 scenario_built id
       = tree_search 3
           (snd (tree_insert linux_rb_insert_color
                   (snd (tree_insert linux_rb_insert_color root_lookup_init
                           5 5 (new_root_info 5 5 0 "toplevel" 8)))
                   256 5 (new_root_info 256 5 256 "snap1" 5))) id.
Proof.
  apply (add_root_then_tree_search linux_rb_insert_color
           (snd (tree_insert linux_rb_insert_color
                   (snd (tree_insert linux_rb_insert_color root_lookup_init
                           5 5 (new_root_info 5 5 0 "toplevel" 8)))
                   256 5 (new_root_info 256 5 256 "snap1" 5)))
           scenario_built 257 256 256 "nested" 6 3).
  - exact linux_keeps_order.
  - apply (inserted_ordered linux_rb_insert_color linux_keeps_order).
    repeat (apply inserted_step; [|reflexivity]). apply inserted_init.
  - vm_compute. reflexivity.
  - vm_compute. lia.
Defined.

(** ** The [for] loop over a batch *)

Section Batch.

Variable rb_insert_color : rb_ptr -> rb_tree.
Hypothesis rb_insert_color_keeps : keeps_order rb_insert_color.

(** [add_root] on an ordered index: either the key is there and the
    process exits, or the record is linked in. *)
Lemma add_root_cases (root : rb_tree) (it : search_item) :
  rb_ordered root ->
  (In (index_key it) (keys root)
   /\ add_root rb_insert_color root (sh_objectid it) (sh_offset it)
        (ref_dirid it) (ref_name it) (ref_name_len it) = Exit 1)
  \/ (~ In (index_key it) (keys root)
      /\ exists root',
           add_root rb_insert_color root (sh_objectid it) (sh_offset it)
             (ref_dirid it) (ref_name it) (ref_name_len it) = Ok root'
           /\ rb_ordered root'
           /\ Permutation (item_record it :: elements root) (elements root')
           /\ forall k, In k (keys root') <->
                        k = index_key it \/ In k (keys root)).
Proof.
  intros S. unfold add_root.
  destruct (tree_insert_spec rb_insert_color rb_insert_color_keeps root
              (sh_objectid it) (sh_offset it)
              (new_root_info (sh_objectid it) (sh_offset it) (ref_dirid it)
                 (ref_name it) (ref_name_len it)) S eq_refl)
    as [(n & E & R & Kp)|(t & X & Y & E & ER & ET & S' & A)]; rewrite E.
  - left. split; trivial. unfold keys, index_key. rewrite <- Kp.
    apply in_map. rewrite <- R, elements_ptr_root.
    apply in_or_app. simpl. auto.
  - right. split; trivial. exists t. repeat split; trivial.
    + rewrite ER, ET. apply Permutation_middle.
    + unfold keys. rewrite ET, ER. intros H.
      now apply keys_middle in H.
    + unfold keys. rewrite ET, ER. intros H. now apply keys_middle.
Qed.

Lemma scan_items_cursor (items : list search_item) : forall root sk root' sk',
  scan_items rb_insert_color root sk items = Ok (root', sk') ->
  sk' = cursor_after sk items.
Proof.
  induction items as [|it rest IH]; intros root sk root' sk' H; simpl in H.
  - now injection H as _ <-.
  - destruct (add_root rb_insert_color root (sh_objectid it) (sh_offset it)
                (ref_dirid it) (ref_name it) (ref_name_len it));
      simpl in H; try discriminate.
    apply IH in H. exact H.
Qed.

Lemma scan_items_cases (items : list search_item) : forall root sk,
  rb_ordered root ->
  (insertable root items
   /\ exists root',
        scan_items rb_insert_color root sk items
        = Ok (root', cursor_after sk items)
        /\ rb_ordered root'
        /\ Permutation (map item_record items ++ elements root)
             (elements root'))
  \/ (~ insertable root items
      /\ scan_items rb_insert_color root sk items = Exit 1).
Proof.
  induction items as [|it rest IH]; intros root sk S.
  - left. split.
    + split; [constructor | intros ? []].
    + exists root. simpl. repeat split; trivial.
  - simpl scan_items.
    destruct (add_root_cases root it S)
      as [(Hin & ->)|(Hout & root1 & -> & S1 & P1 & K1)].
    + right. split; trivial. intros (_ & D). apply (D it); simpl; auto.
    + simpl bind.
      destruct (IH root1 (record_mins sk it) S1)
        as [((ND & D) & root' & E & S' & P')|(NI & E)].
      * left. split.
        -- split.
           ++ simpl. constructor; trivial. intros Hk.
              apply in_map_iff in Hk. destruct Hk as (it' & Ek & Hit').
              apply (D it' Hit'). apply K1. left. exact Ek.
           ++ intros it' [<-|Hit']; trivial.
              intros Hk. apply (D it' Hit'). apply K1. auto.
        -- exists root'. repeat split; trivial. simpl.
           eapply Permutation_trans; [|exact P'].
           eapply Permutation_trans;
             [apply Permutation_middle|].
           apply Permutation_app_head. exact P1.
      * right. split; trivial. intros (ND & D). apply NI.
        simpl in ND. inversion ND as [|? ? Nk ND']; subst. split; trivial.
        intros it' Hit' Hk. apply K1 in Hk. destruct Hk as [Hk|Hk].
        -- apply Nk. rewrite <- Hk. now apply in_map.
        -- apply (D it'); simpl; auto.
Qed.

End Batch.

(** X6.  The [for] loop over the items of a batch either inserts them all
    or ends the process with [exit(1)].  It inserts them all exactly when
    no two items share an index key and no item's key is in the index
    already; the index then holds a record for each item, beside the
    records it held, and the search key carries the mins of the last
    item. *)
Theorem scan_items_all_or_exit (rb_insert_color : rb_ptr -> rb_tree)
        (root : rb_tree) (sk : btrfs_ioctl_search_key)
        (items : list search_item) :
  keeps_order rb_insert_color ->
  rb_ordered root ->
  (insertable root items
   /\ exists root',
        scan_items rb_insert_color root sk items
        = Ok (root', cursor_after sk items)
        /\ rb_ordered root'
        /\ Permutation (map item_record items ++ elements root)
             (elements root'))
  \/ (~ insertable root items
      /\ scan_items rb_insert_color root sk items = Exit 1).
Proof.
  intros K S. now apply scan_items_cases.
Qed.

Lemma scan_items_all_or_exit_witness :
  (insertable root_lookup_init scenario_records
   /\ exists root',
        scan_items linux_rb_insert_color root_lookup_init initial_search_key
          scenario_records
        = Ok (root', cursor_after initial_search_key scenario_records)
        /\ rb_ordered root'
        /\ Permutation
             (map item_record scenario_records ++ elements root_lookup_init)
             (elements root'))
  \/ (~ insertable root_lookup_init scenario_records
      /\ scan_items linux_rb_insert_color root_lookup_init
           initial_search_key scenario_records = Exit 1).
Proof.
  apply (scan_items_all_or_exit linux_rb_insert_color root_lookup_init
           initial_search_key scenario_records).
  - exact linux_keeps_order.
  - constructor.
Defined.

(** ** The build loop, batch by batch *)

Section Build_steps.

Variable rb_insert_color : rb_ptr -> rb_tree.
Hypothesis rb_insert_color_keeps : keeps_order rb_insert_color.
Variable ioc_tree_search : btrfs_ioctl_search_key -> Z * list search_item.

(** One turn of the loop on a batch that can be inserted. *)
Lemma build_loop_step (fuel : nat) (root : rb_tree)
      (sk : btrfs_ioctl_search_key) (r : Z) (items : list search_item) :
  rb_ordered root ->
  ioc_tree_search sk = (r, items) ->
  0 <= r -> items <> [] ->
  insertable root items ->
  exists root1,
    rb_ordered root1
    /\ Permutation (map item_record items ++ elements root) (elements root1)
    /\ build_loop rb_insert_color ioc_tree_search (S fuel) root sk
       = if min_objectid (cursor_after sk items) <? u64_max
         then build_loop rb_insert_color ioc_tree_search fuel root1
                (next_search_key sk items)
         else Ok (inr (r, root1)).
Proof.
  intros S E R N I.
  destruct (scan_items_cases rb_insert_color rb_insert_color_keeps items
              root sk S) as [(_ & root1 & SC & S1 & P1)|(NI & _)];
    [|contradiction].
  exists root1. repeat split; trivial.
  simpl. rewrite E. destruct (Z.ltb_spec r 0); [lia|].
  destruct items as [|it rest]; [contradiction|].
  rewrite SC. reflexivity.
Qed.

Lemma build_loop_ret_nonneg (fuel : nat) : forall root sk ret root',
  build_loop rb_insert_color ioc_tree_search fuel root sk
  = Ok (inr (ret, root')) -> 0 <= ret.
Proof.
  induction fuel as [|fuel IH]; intros root sk ret root' H; simpl in H.
  - discriminate.
  - destruct (ioc_tree_search sk) as (r, items).
    destruct (Z.ltb_spec r 0); [discriminate|].
    destruct items as [|sh rest].
    + now injection H as <- _.
    + destruct (scan_items rb_insert_color root sk (sh :: rest))
        as [[t sk']| | |]; try discriminate.
      cbn [bind fst snd] in H.
      destruct (min_objectid sk' <? u64_max).
      * eapply IH; eauto.
      * now injection H as <- _.
Qed.

End Build_steps.

(** X7.  When the first search delivers all the records in one batch, no
    two of them under the same index key, and the search that follows
    delivers nothing, the build loop ends after two searches with an
    ordered index that holds exactly one record per item, and with the
    value of the second search. *)
Theorem build_loop_single_batch (rb_insert_color : rb_ptr -> rb_tree)
        (ioc_tree_search : btrfs_ioctl_search_key -> Z * list search_item)
        (r0 r1 : Z) (items : list search_item) (fuel : nat) :
  keeps_order rb_insert_color ->
  ioc_tree_search initial_search_key = (r0, items) ->
  0 <= r0 -> items <> [] ->
  NoDup (map index_key items) ->
  min_objectid (cursor_after initial_search_key items) < u64_max ->
  ioc_tree_search (next_search_key initial_search_key items) = (r1, []) ->
  0 <= r1 ->
  exists root,
    build_loop rb_insert_color ioc_tree_search (S (S fuel)) root_lookup_init
      initial_search_key = Ok (inr (r1, root))
    /\ Permutation (map item_record items) (elements root)
    /\ rb_ordered root.
Proof.
  intros K E0 R0 N ND LT E1 R1.
  destruct (build_loop_step rb_insert_color K ioc_tree_search (S fuel)
              root_lookup_init initial_search_key r0 items)
    as (root & S & P & B); trivial.
  { constructor. }
  { split; trivial. intros it _ []. }
  exists root. repeat split; trivial.
  - rewrite B. apply Z.ltb_lt in LT. rewrite LT.
    simpl. rewrite E1. destruct (Z.ltb_spec r1 0); [lia | reflexivity].
  - simpl in P. now rewrite app_nil_r in P.
Qed.

Lemma build_loop_single_batch_witness :
  exists root,
    build_loop linux_rb_insert_color (enumerator 4096 scenario_records) 2
      root_lookup_init initial_search_key = Ok (inr (0, root))
    /\ Permutation (map item_record scenario_records) (elements root)
    /\ rb_ordered root.
Proof.
  apply (build_loop_single_batch linux_rb_insert_color
           (enumerator 4096 scenario_records) 0 0 scenario_records 0).
  - exact linux_keeps_order.
  - vm_compute. reflexivity.
  - lia.
  - discriminate.
  - vm_compute. repeat constructor; simpl; intuition discriminate.
  - vm_compute. reflexivity.
  - vm_compute. reflexivity.
  - lia.
Defined.

(** X8.  The loop ends after a batch whose last item has the largest
    [objectid] there is: it makes no further search (one unit of fuel is
    enough), its value is that of the search that delivered the batch, and
    the index holds the records of the batch beside those it held. *)
Theorem build_loop_stops_at_max_objectid
        (rb_insert_color : rb_ptr -> rb_tree)
        (ioc_tree_search : btrfs_ioctl_search_key -> Z * list search_item)
        (root : rb_tree) (sk : btrfs_ioctl_search_key) (r : Z)
        (items : list search_item) :
  keeps_order rb_insert_color ->
  rb_ordered root ->
  ioc_tree_search sk = (r, items) ->
  0 <= r -> items <> [] ->
  insertable root items ->
  u64_max <= min_objectid (cursor_after sk items) ->
  exists root',
    build_loop rb_insert_color ioc_tree_search 1 root sk
    = Ok (inr (r, root'))
    /\ Permutation (map item_record items ++ elements root) (elements root').
Proof.
  intros K S E R N I M.
  destruct (build_loop_step rb_insert_color K ioc_tree_search 0
              root sk r items) as (root' & _ & P & B); trivial.
  exists root'. split; trivial. rewrite B.
  destruct (Z.ltb_spec (min_objectid (cursor_after sk items)) u64_max);
    [lia | reflexivity].
Qed.

Lemma build_loop_stops_at_max_objectid_witness :
  exists root',
    build_loop linux_rb_insert_color
      (enumerator 4096 [backref u64_max 5 256 "last"]) 1
      root_lookup_init initial_search_key = Ok (inr (0, root'))
    /\ Permutation
         (map item_record [backref u64_max 5 256 "last"]
          ++ elements root_lookup_init) (elements root').
Proof.
  apply (build_loop_stops_at_max_objectid linux_rb_insert_color
           (enumerator 4096 [backref u64_max 5 256 "last"])
           root_lookup_init initial_search_key 0
           [backref u64_max 5 256 "last"]).
  - exact linux_keeps_order.
  - constructor.
  - vm_compute. reflexivity.
  - lia.
  - discriminate.
  - split; [repeat constructor; intros [] | intros it _ []].
  - vm_compute. discriminate.
Defined.

(** X9.  When the [for] loop over a batch is done, the search key holds the
    [objectid], the [type] and the [offset] of the last item of the batch
    as its mins, and is otherwise as it was. *)
Theorem scan_items_records_last_mins (rb_insert_color : rb_ptr -> rb_tree)
        (root root' : rb_tree) (sk sk' : btrfs_ioctl_search_key)
        (items : list search_item) (lst : search_item) :
  scan_items rb_insert_color root sk (items ++ [lst]) = Ok (root', sk') ->
  sk' = mk_search_key (tree_id sk) (sh_objectid lst) (max_objectid sk)
          (sh_offset lst) (max_offset sk) (min_transid sk) (max_transid sk)
          (sh_type lst) (max_type sk) (nr_items sk).
Proof.
  revert root sk. induction items as [|it rest IH]; intros root sk H;
    simpl in H.
  - destruct (add_root rb_insert_color root (sh_objectid lst) (sh_offset lst)
                (ref_dirid lst) (ref_name lst) (ref_name_len lst));
      simpl in H; try discriminate.
    now injection H as _ <-.
  - destruct (add_root rb_insert_color root (sh_objectid it) (sh_offset it)
                (ref_dirid it) (ref_name it) (ref_name_len it));
      simpl in H; try discriminate.
    apply IH in H. exact H.
Qed.

Lemma scan_items_records_last_mins_witness :
  cursor_after initial_search_key scenario_records
  = mk_search_key 1 257 u64_max 256 u64_max 0 u64_max
      BTRFS_ROOT_BACKREF_KEY BTRFS_ROOT_BACKREF_KEY 4096.
Proof.
  apply (scan_items_records_last_mins linux_rb_insert_color root_lookup_init
           scenario_built initial_search_key
           (cursor_after initial_search_key scenario_records)
           [ backref 5 5 0 "toplevel"; backref 256 5 256 "snap1" ]
           (backref 257 256 256 "nested")).
  vm_compute. reflexivity.
Defined.

(** X10.  A negative value of [list_subvols] means that nothing has been
    printed: the two [return]s that can hand out a negative value, after a
    search and after a path lookup, come before the stitch phase, and the
    value returned after it is the one a search has left, which is not
    negative.  So a call that has printed a line returns no negative
    value. *)
Theorem list_subvols_negative_prints_nothing
        (rb_insert_color : rb_ptr -> rb_tree)
        (ioc_tree_search : btrfs_ioctl_search_key -> Z * list search_item)
        (ioc_ino_lookup : Z -> Z -> Z * string)
        (fuel : nat) (ret : Z) (out : list report) :
  list_subvols rb_insert_color ioc_tree_search ioc_ino_lookup fuel
  = Ok (ret, out) ->
  ret < 0 -> out = [].
Proof.
  intros H N. unfold list_subvols in H.
  destruct (build_loop rb_insert_color ioc_tree_search fuel root_lookup_init
              initial_search_key) as [[r|(r, root)]| | |] eqn:B;
    simpl in H; try discriminate.
  { now injection H as _ <-. }
  apply build_loop_ret_nonneg in B.
  destruct (fill_paths ioc_ino_lookup fuel root (rb_first root))
    as [([r'|], root')| | |]; simpl in H; try discriminate.
  { now injection H as _ <-. }
  destruct (stitch fuel root' (rb_last root')) as [out'| | |];
    simpl in H; try discriminate.
  injection H as <- _. lia.
Qed.

Lemma list_subvols_negative_prints_nothing_witness :
  list_subvols linux_rb_insert_color (enumerator 4096 scenario_records)
    lookup_fails_for_snap1 10 = Ok (-1, [])
  /\ @nil report = [].
Proof.
  split; [vm_compute; reflexivity|].
  apply (list_subvols_negative_prints_nothing linux_rb_insert_color
           (enumerator 4096 scenario_records) lookup_fails_for_snap1
           10 (-1) []).
  - vm_compute. reflexivity.
  - lia.
Defined.

(** ** [lookup_ino_path] once more *)

(** X11.  [lookup_ino_path] touches nothing but [path]: the other four
    fields of the record are as they were.  When it returns a value other
    than 0 the record is as it was altogether; when it returns 0 the
    [path] is set; and a record whose [path] is set already is left alone,
    with the value 0, whatever the ioctl would answer. *)
Theorem lookup_ino_path_frame (ioc_ino_lookup : Z -> Z -> Z * string)
        (ri : root_info) :
  let r := lookup_ino_path ioc_ino_lookup ri in
  root_id (snd r) = root_id ri
  /\ ref_tree (snd r) = ref_tree ri
  /\ dir_id (snd r) = dir_id ri
  /\ name (snd r) = name ri
  /\ (fst r <> 0 -> snd r = ri)
  /\ (fst r = 0 -> path (snd r) <> None)
  /\ (path ri <> None -> r = (0, ri)).
Proof.
  unfold lookup_ino_path. destruct (path ri) as [p|] eqn:P; simpl.
  - repeat split; trivial; try congruence.
  - destruct (ioc_ino_lookup (ref_tree ri) (dir_id ri)) as (ret, nm).
    destruct (Z.eqb_spec ret 0) as [->|N]; simpl.
    + destruct nm; simpl; repeat split; trivial; congruence.
    + repeat split; trivial; congruence.
Qed.

(** X12.  Resolving is idempotent: once [lookup_ino_path] has returned 0
    for a record, calling it again on the record it left returns 0 and
    changes nothing, and the ioctl is not consulted (any ioctl gives the
    same). *)
Theorem lookup_ino_path_idempotent
        (ioc_ino_lookup ioc_ino_lookup' : Z -> Z -> Z * string)
        (ri ri' : root_info) :
  lookup_ino_path ioc_ino_lookup ri = (0, ri') ->
  lookup_ino_path ioc_ino_lookup' ri' = (0, ri').
Proof.
  intros H.
  assert (P : path ri' <> None).
  { unfold lookup_ino_path in H. destruct (path ri) as [p|] eqn:Pr.
    - injection H as <-. congruence.
    - destruct (ioc_ino_lookup (ref_tree ri) (dir_id ri)) as (ret, nm).
      destruct (Z.eqb_spec ret 0) as [->|N]; simpl in H.
      + destruct nm; injection H as <-; discriminate.
      + injection H as E _. contradiction. }
  unfold lookup_ino_path. destruct (path ri'); [reflexivity | contradiction].
Qed.

Lemma lookup_ino_path_idempotent_witness :
  lookup_ino_path lookup_fails_for_snap1
    (mk_root_info 256 5 256 (Some "dir/snap1"%string) "snap1")
  = (0, mk_root_info 256 5 256 (Some "dir/snap1"%string) "snap1").
Proof.
  apply (lookup_ino_path_idempotent lookup_in_dir lookup_fails_for_snap1
           (mk_root_info 256 5 256 None "snap1")).
  reflexivity.
Defined.

(** ** The resolve phase, when no lookup fails *)

Lemma fill_list_all (lk : root_info -> Z * root_info) (l : list root_info) :
  (forall e, In e l -> 0 <= fst (lk e)) ->
  fill_list lk l = (None, map (fun e => snd (lk e)) l).
Proof.
  induction l as [|a l IH]; intros H; simpl; trivial.
  pose proof (H a (or_introl eq_refl)) as Ha.
  destruct (lk a) as (ret, a'). simpl in *.
  destruct (Z.ltb_spec ret 0); [lia|].
  rewrite IH by auto. reflexivity.
Qed.

Lemma fill_list_none (lk : root_info -> Z * root_info) (l l' : list root_info) :
  fill_list lk l = (None, l') ->
  l' = map (fun e => snd (lk e)) l /\ forall e, In e l -> 0 <= fst (lk e).
Proof.
  revert l'. induction l as [|a l IH]; intros l' H; simpl in H.
  - injection H as <-. split; trivial. intros ? [].
  - destruct (lk a) as (ret, a') eqn:La.
    destruct (Z.ltb_spec ret 0); [discriminate|].
    destruct (fill_list lk l) as (r, l'') eqn:F.
    injection H as -> <-. destruct (IH l'' eq_refl) as (-> & Hl).
    split.
    + simpl. now rewrite La.
    + intros e [<-|He]; [rewrite La; simpl; lia | auto].
Qed.

Lemma lookup_ino_path_zero_sets_path (ioc_ino_lookup : Z -> Z -> Z * string)
      (ri : root_info) :
  fst (lookup_ino_path ioc_ino_lookup ri) = 0 ->
  path (snd (lookup_ino_path ioc_ino_lookup ri)) <> None.
Proof.
  unfold lookup_ino_path. destruct (path ri) as [p|] eqn:P; simpl.
  - congruence.
  - destruct (ioc_ino_lookup (ref_tree ri) (dir_id ri)) as (ret, nm).
    destruct (Z.eqb_spec ret 0) as [->|N]; simpl; [|contradiction].
    destruct nm; simpl; discriminate.
Qed.

(** X13.  When the path lookup returns 0 for every record of the index,
    the resolve phase runs to its end with fuel for the nodes: it leaves
    each record as [lookup_ino_path] leaves it, in the same place, and
    every record has its [path] set. *)
Theorem fill_paths_resolves_all (ioc_ino_lookup : Z -> Z -> Z * string)
        (fuel : nat) (root : rb_tree) :
  (forall e, In e (elements root) ->
             fst (lookup_ino_path ioc_ino_lookup e) = 0) ->
  (rb_count root <= fuel)%nat ->
  exists root',
    fill_paths ioc_ino_lookup fuel root (rb_first root) = Ok (None, root')
    /\ elements root'
       = map (fun e => snd (lookup_ino_path ioc_ino_lookup e)) (elements root)
    /\ forall e, In e (elements root') -> path e <> None.
Proof.
  intros Z0 L.
  destruct (fill_paths_first ioc_ino_lookup fuel root) as [T|(root' & E & EL)].
  { now apply fill_paths_first_enough in T. }
  rewrite fill_list_all in E, EL by (intros e He; rewrite Z0; trivial; lia).
  simpl in E, EL. exists root'. repeat split; trivial.
  intros e He. rewrite EL in He. apply in_map_iff in He.
  destruct He as (x & <- & Hx).
  now apply lookup_ino_path_zero_sets_path, Z0.
Qed.

Lemma fill_paths_resolves_all_witness :
  exists root',
    fill_paths lookup_in_dir 3 scenario_built (rb_first scenario_built)
    = Ok (None, root')
    /\ elements root'
       = map (fun e => snd (lookup_ino_path lookup_in_dir e))
           (elements scenario_built)
    /\ forall e, In e (elements root') -> path e <> None.
Proof.
  apply (fill_paths_resolves_all lookup_in_dir 3 scenario_built).
  - intros e He. vm_compute in He.
    destruct He as [<-|[<-|[<-|[]]]]; reflexivity.
  - vm_compute. lia.
Defined.

(** ** [resolve_root] on chains of any length *)

(** More fuel does not change what [tree_search] returns. *)
Lemma tree_search_back_more_fuel (fuel : nat) : forall (n : rb_ptr) id e k,
  tree_search_back fuel n id = Ok e ->
  tree_search_back (fuel + k) n id = Ok e.
Proof.
  induction fuel as [|fuel IH]; intros n id e k H; simpl in *;
    [discriminate|].
  destruct (rb_prev n) as [m|]; trivial.
  destruct (negb (root_id (ptr_entry m) =? id)); trivial. now apply IH.
Qed.

Lemma tree_search_back_ok_or_timeout (fuel : nat) : forall (n : rb_ptr) id,
  tree_search_back fuel n id = Timeout
  \/ exists e, tree_search_back fuel n id = Ok e.
Proof.
  induction fuel as [|fuel IH]; intros n id; simpl; [now left|].
  destruct (rb_prev n) as [m|]; [|eauto].
  destruct (negb (root_id (ptr_entry m) =? id)); eauto.
Qed.

(** Whatever the fuel, [tree_search] on an ordered index runs out of fuel
    or returns the leftmost record with the [root_id]. *)
Lemma tree_search_any_fuel (fuel : nat) (rl : rb_tree) (id : Z) :
  rb_ordered rl ->
  tree_search fuel rl id = Timeout
  \/ tree_search fuel rl id = Ok (find (has_root_id id) (elements rl)).
Proof.
  intros S.
  pose proof (tree_search_find (fuel + rb_count rl) rl id S
                ltac:(lia)) as F.
  unfold tree_search in *.
  destruct (tree_search_walk rl [] id) as [n|]; [|now right].
  destruct (tree_search_back_ok_or_timeout fuel n id) as [T|(e & E)].
  - left. now rewrite T.
  - right. rewrite (tree_search_back_more_fuel fuel n id e (rb_count rl) E)
      in F. rewrite E. exact F.
Qed.

Lemma string_app_assoc (a b c : string) :
  ((a ++ b) ++ c)%string = (a ++ b ++ c)%string.
Proof. induction a as [|x a IH]; simpl; [reflexivity | now rewrite IH]. Qed.

Lemma join_paths_snoc (ps : list string) (p q : string) :
  join_paths ((q :: ps) ++ [p]) = (join_paths (q :: ps) ++ "/" ++ p)%string.
Proof.
  revert q. induction ps as [|x ps IH]; intros q.
  - reflexivity.
  - change (join_paths ((q :: x :: ps) ++ [p]))
      with (q ++ "/" ++ join_paths ((x :: ps) ++ [p]))%string.
    rewrite IH.
    change (join_paths (q :: x :: ps))
      with (q ++ "/" ++ join_paths (x :: ps))%string.
    rewrite !string_app_assoc. reflexivity.
Qed.

Lemma join_paths_app_last (xs : list string) (p : string) :
  xs <> [] ->
  join_paths (xs ++ [p]) = (join_paths xs ++ "/" ++ p)%string.
Proof.
  destruct xs as [|q ps]; [contradiction|]. intros _.
  apply join_paths_snoc.
Qed.

Lemma last_cons_default (A : Type) (c : A) (l : list A) (d d' : A) :
  last (c :: l) d = last (c :: l) d'.
Proof.
  revert c. induction l as [|x l IH]; intros c; [reflexivity|].
  change (last (x :: l) d = last (x :: l) d'). apply IH.
Qed.

(** The loop along a chain: the paths of the chain are put in front of what
    has been put together so far. *)
Lemma resolve_root_loop_chain (rl : rb_tree) :
  rb_ordered rl ->
  forall (l : list root_info) (ps : list string) (fuel : nat)
         (acc : option string) (a : root_info),
  parent_chain rl (a :: l) ->
  Forall2 (fun e p => path e = Some p) (a :: l) ps ->
  (List.length (a :: l) + rb_count rl <= fuel)%nat ->
  resolve_root_loop fuel rl a acc
  = Ok (ref_tree (last l a),
        match acc with
        | Some fp => (join_paths (rev ps) ++ "/" ++ fp)%string
        | None => join_paths (rev ps)
        end).
Proof.
  intros S. induction l as [|b l IH]; intros ps fuel acc a C P F.
  - inversion P as [|? p ? ps' Pa P']; subst. inversion P'; subst.
    destruct fuel as [|fuel]; [simpl in F; lia|].
    simpl in C. simpl. rewrite Pa. destruct C as [E|A].
    + rewrite E, Z.eqb_refl. reflexivity.
    + destruct (Z.eqb_spec (ref_tree a) (root_id a)); [reflexivity|].
      rewrite (tree_search_absent fuel rl (ref_tree a) A). reflexivity.
  - inversion P as [|? p ? ps' Pa P']; subst.
    destruct fuel as [|fuel]; [simpl in F; lia|].
    destruct C as (N & Fd & C).
    rewrite (resolve_root_loop_step fuel rl a b p acc Pa N).
    2:{ rewrite tree_search_find by (trivial; simpl in F; lia).
        now rewrite Fd. }
    rewrite (IH ps' fuel _ b C P') by (simpl in *; lia).
    f_equal. f_equal.
    { destruct l as [|c l']; [reflexivity|].
      now rewrite (last_cons_default _ c l' b a). }
    assert (NE : rev ps' <> []).
    { inversion P' as [|? q ? qs Pb P'']; subst. simpl.
      destruct (rev qs); discriminate. }
    simpl rev. rewrite (join_paths_app_last (rev ps') p NE).
    destruct acc as [fp|].
    + rewrite !string_app_assoc. reflexivity.
    + reflexivity.
Qed.

(** X14.  [resolve_root] along a chain of any length.  In an ordered
    index, let the record [a] start a chain of resolved records, each
    referenced from the subvolume of the next, the next one being the
    record [tree_search] returns for it, and the last one referring to
    itself or to a subvolume without a record.  Then the line printed for
    [a] has its [root_id], the [ref_tree] of the last record as top level,
    and the paths of the chain, the last record's first, joined by [/];
    fuel for the chain and one search is enough. *)
Theorem resolve_root_along_chain (rl : rb_tree) (a : root_info)
        (l : list root_info) (ps : list string) (fuel : nat) :
  rb_ordered rl ->
  parent_chain rl (a :: l) ->
  Forall2 (fun e p => path e = Some p) (a :: l) ps ->
  (List.length (a :: l) + rb_count rl <= fuel)%nat ->
  resolve_root fuel rl a
  = Ok (mk_report (root_id a) (ref_tree (last l a)) (join_paths (rev ps))).
Proof.
  intros S C P F. unfold resolve_root.
  rewrite (resolve_root_loop_chain rl S l ps fuel None a C P F).
  reflexivity.
Qed.

Lemma resolve_root_along_chain_witness :
  resolve_root 6 scenario_index rec_nested
  = Ok (mk_report 257 5 "toplevel/snap1/nested"%string).
Proof.
  apply (resolve_root_along_chain scenario_index rec_nested
           [rec_snap1; rec_toplevel]
           ["nested"%string; "snap1"%string; "toplevel"%string] 6).
  - exact scenario_index_ordered.
  - simpl. repeat split; try discriminate; auto.
  - repeat constructor.
  - simpl. lia.
Defined.

(** X15.  [resolve_root] does not return on a reference cycle.  Let [C] be
    a set of resolved records of an ordered index, none referring to
    itself, such that the record [tree_search] returns for the parent of a
    record of [C] is in [C] again.  Then, started on a record of [C], the
    loop never reaches one of its two exits: whatever the fuel, it runs
    out. *)
Theorem resolve_root_loops_on_cycle (rl : rb_tree)
        (C : root_info -> Prop) (ri : root_info) (fuel : nat) :
  rb_ordered rl ->
  (forall a, C a ->
     path a <> None /\ ref_tree a <> root_id a
     /\ exists b, find (has_root_id (ref_tree a)) (elements rl) = Some b
                  /\ C b) ->
  C ri ->
  resolve_root fuel rl ri = Timeout.
Proof.
  intros S H Hri.
  assert (L : forall f a acc, C a -> resolve_root_loop f rl a acc = Timeout).
  { induction f as [|f IH]; intros a acc Ha; [reflexivity|].
    destruct (H a Ha) as (P & N & b & Fb & Hb). simpl.
    destruct (path a) as [p|]; [|contradiction].
    destruct (Z.eqb_spec (ref_tree a) (root_id a)); [contradiction|].
    destruct (tree_search_any_fuel f rl (ref_tree a) S) as [-> | ->];
      [reflexivity|].
    rewrite Fb. simpl. now apply IH. }
  unfold resolve_root. now rewrite L.
Qed.

Lemma resolve_root_loops_on_cycle_witness :
  resolve_root 1000 cyclic_index rec_ping = Timeout.
Proof.
  apply (resolve_root_loops_on_cycle cyclic_index
           (fun e => e = rec_ping \/ e = rec_pong) rec_ping 1000).
  - unfold rb_ordered. simpl.
    repeat (apply SSorted_cons || apply SSorted_nil
            || apply Forall_cons || apply Forall_nil).
    unfold above. simpl. lia.
  - intros a [ -> | -> ]; (split; [discriminate|]); (split; [discriminate|]).
    + exists rec_pong. split; [reflexivity | now right].
    + exists rec_ping. split; [reflexivity | now left].
  - now left.
Defined.



(** ** Unset paths and the stitch phase *)

Lemma tree_search_ok_or_timeout (fuel : nat) (rl : rb_tree) (id : Z) :
  tree_search fuel rl id = Timeout \/ exists r, tree_search fuel rl id = Ok r.
Proof.
  unfold tree_search. destruct (tree_search_walk rl [] id) as [n|]; [|eauto].
  destruct (tree_search_back_ok_or_timeout fuel n id) as [->|(e & ->)];
    simpl; eauto.
Qed.

Lemma resolve_root_loop_no_segv (rl : rb_tree) :
  (forall e, In e (elements rl) -> path e <> None) ->
  forall fuel found acc,
  path found <> None ->
  resolve_root_loop fuel rl found acc = Timeout
  \/ exists r, resolve_root_loop fuel rl found acc = Ok r.
Proof.
  intros A. induction fuel as [|fuel IH]; intros found acc P; [now left|].
  simpl. destruct (path found) as [p|]; [|contradiction].
  destruct (ref_tree found =? root_id found); [eauto|].
  destruct (tree_search_ok_or_timeout fuel rl (ref_tree found))
    as [->|([found'|] & T)]; [now left| |]; rewrite T; simpl; [|eauto].
  apply IH. apply A. now apply (tree_search_in _ _ _ _ T).
Qed.

(** X17.  On an index all of whose records have their [path] set,
    [resolve_root] called for a record with its [path] set reads no [NULL]
    path and ends no process: it prints a line, unless it runs out of
    fuel. *)
Theorem resolve_root_reads_no_null (fuel : nat) (rl : rb_tree)
        (ri : root_info) :
  (forall e, In e (elements rl) -> path e <> None) ->
  path ri <> None ->
  resolve_root fuel rl ri = Timeout
  \/ exists line, resolve_root fuel rl ri = Ok line.
Proof.
  intros A P. unfold resolve_root.
  destruct (resolve_root_loop_no_segv rl A fuel ri None P) as [->|(r & ->)];
    simpl; eauto.
Qed.

Lemma resolve_root_reads_no_null_witness :
  resolve_root 1000 cyclic_index rec_ping = Timeout
  \/ exists line, resolve_root 1000 cyclic_index rec_ping = Ok line.
Proof.
  apply (resolve_root_reads_no_null 1000 cyclic_index rec_ping).
  - intros e [<-|[<-|[]]]; discriminate.
  - discriminate.
Defined.

Lemma stitch_no_segv (rl : rb_tree) :
  (forall e, In e (elements rl) -> path e <> None) ->
  forall fuel n,
  incl (upto n) (elements rl) ->
  stitch fuel rl n = Timeout \/ exists out, stitch fuel rl n = Ok out.
Proof.
  intros A. induction fuel as [|fuel IH]; intros [n|] I; simpl; eauto.
  assert (P : path (ptr_entry n) <> None).
  { apply A, I. simpl. apply in_or_app. simpl. auto. }
  unfold resolve_root.
  destruct (resolve_root_loop_no_segv rl A fuel (ptr_entry n) None P)
    as [->|(r & ->)]; simpl; [now left|].
  destruct (IH (rb_prev n)) as [->|(out & ->)]; simpl; eauto.
  rewrite upto_rb_prev. intros x Hx. apply I. simpl.
  apply in_or_app. auto.
Qed.

Lemma scan_items_ok_or_exit (rb_insert_color : rb_ptr -> rb_tree)
      (items : list search_item) : forall root sk,
  scan_items rb_insert_color root sk items = Exit 1
  \/ exists st, scan_items rb_insert_color root sk items = Ok st.
Proof.
  induction items as [|it rest IH]; intros root sk; simpl; [eauto|].
  unfold add_root.
  destruct (tree_insert rb_insert_color root (sh_objectid it) (sh_offset it)
              _) as ([n|], t); simpl; [now left|]. apply IH.
Qed.

Lemma build_loop_no_segv (rb_insert_color : rb_ptr -> rb_tree)
      (ioc_tree_search : btrfs_ioctl_search_key -> Z * list search_item)
      (fuel : nat) : forall root sk,
  build_loop rb_insert_color ioc_tree_search fuel root sk <> Segv.
Proof.
  induction fuel as [|fuel IH]; intros root sk; simpl; [discriminate|].
  destruct (ioc_tree_search sk) as (r, items).
  destruct (r <? 0); [discriminate|].
  destruct items as [|it rest]; [discriminate|].
  destruct (scan_items_ok_or_exit rb_insert_color (it :: rest) root sk)
    as [->|((t, sk') & ->)]; simpl; [discriminate|].
  destruct (min_objectid sk' <? u64_max); [apply IH | discriminate].
Qed.

Lemma lookup_ino_path_ret_path (ioc_ino_lookup : Z -> Z -> Z * string)
      (ri : root_info) :
  fst (lookup_ino_path ioc_ino_lookup ri) = 0
  \/ (path ri = None
      /\ lookup_ino_path ioc_ino_lookup ri
         = (fst (ioc_ino_lookup (ref_tree ri) (dir_id ri)), ri)
      /\ fst (ioc_ino_lookup (ref_tree ri) (dir_id ri)) <> 0).
Proof.
  unfold lookup_ino_path. destruct (path ri); [now left|].
  destruct (ioc_ino_lookup (ref_tree ri) (dir_id ri)) as (ret, nm).
  destruct (Z.eqb_spec ret 0) as [->|N]; simpl.
  - left. now destruct nm.
  - right. auto.
Qed.

(** X18.  As long as the path lookup ioctl returns 0 or a negative value,
    as ioctls do, [list_subvols] reads no [NULL] path: the stitch phase
    only runs when every lookup has returned 0, and then every [path] is
    set. *)
Theorem list_subvols_reads_no_null
        (rb_insert_color : rb_ptr -> rb_tree)
        (ioc_tree_search : btrfs_ioctl_search_key -> Z * list search_item)
        (ioc_ino_lookup : Z -> Z -> Z * string) (fuel : nat) :
  (forall treeid objectid, fst (ioc_ino_lookup treeid objectid) <= 0) ->
  list_subvols rb_insert_color ioc_tree_search ioc_ino_lookup fuel <> Segv.
Proof.
  intros NP. unfold list_subvols.
  pose proof (build_loop_no_segv rb_insert_color ioc_tree_search fuel
                root_lookup_init initial_search_key) as B.
  destruct (build_loop rb_insert_color ioc_tree_search fuel root_lookup_init
              initial_search_key) as [[r|(r, root)]| | |];
    simpl; try discriminate; try contradiction.
  destruct (fill_paths_first ioc_ino_lookup fuel root)
    as [->|(root' & -> & EL)]; simpl; [discriminate|].
  destruct (fill_list (lookup_ino_path ioc_ino_lookup) (elements root))
    as ([r'|], l') eqn:F; simpl in *; [discriminate|].
  apply fill_list_none in F. destruct F as (-> & G).
  assert (A : forall e, In e (elements root') -> path e <> None).
  { intros e He. rewrite EL in He. apply in_map_iff in He.
    destruct He as (x & <- & Hx).
    apply lookup_ino_path_zero_sets_path.
    destruct (lookup_ino_path_ret_path ioc_ino_lookup x)
      as [Z0|(_ & E & _)]; trivial.
    specialize (G x Hx). rewrite E in G. simpl in G.
    specialize (NP (ref_tree x) (dir_id x)). rewrite E. simpl. lia. }
  destruct (stitch_no_segv root' A fuel (rb_last root'))
    as [->|(out & ->)]; simpl; try discriminate.
  rewrite upto_rb_last. apply incl_refl.
Qed.

Lemma list_subvols_reads_no_null_witness :
  list_subvols linux_rb_insert_color (enumerator 4096 scenario_records)
    lookup_fails_for_snap1 10 <> Segv.
Proof.
  apply (list_subvols_reads_no_null linux_rb_insert_color
           (enumerator 4096 scenario_records) lookup_fails_for_snap1 10).
  intros treeid objectid. unfold lookup_fails_for_snap1.
  destruct ((treeid =? 5) && (objectid =? 256))%bool; simpl; lia.
Defined.

(** X19.  [lookup_ino_path] gives up on any value of the ioctl other than
    0, while [list_subvols] goes on unless the value is negative.  So when
    the ioctl returns a positive value for the record with the smallest
    key, and no negative one for the others, the resolve phase ends with
    that record unresolved, and the stitch phase, which starts with it,
    hands its [NULL] path to [strlen]. *)
Theorem list_subvols_positive_lookup
        (rb_insert_color : rb_ptr -> rb_tree)
        (ioc_tree_search : btrfs_ioctl_search_key -> Z * list search_item)
        (ioc_ino_lookup : Z -> Z -> Z * string)
        (fuel : nat) (ret0 : Z) (root : rb_tree)
        (pre : list root_info) (e : root_info) :
  keeps_order rb_insert_color ->
  build_loop rb_insert_color ioc_tree_search fuel root_lookup_init
    initial_search_key = Ok (inr (ret0, root)) ->
  (rb_count root < fuel)%nat ->
  elements root = pre ++ [e] ->
  (forall x, In x pre -> 0 <= fst (ioc_ino_lookup (ref_tree x) (dir_id x))) ->
  0 < fst (ioc_ino_lookup (ref_tree e) (dir_id e)) ->
  list_subvols rb_insert_color ioc_tree_search ioc_ino_lookup fuel = Segv.
Proof.
  intros K B L EL OKs Pos.
  pose proof (build_loop_fresh rb_insert_color K ioc_tree_search fuel _ _ _ _
                (fresh_index_init) B) as (_ & P).
  assert (Pe : path e = None).
  { rewrite Forall_forall in P. apply P. rewrite EL.
    apply in_or_app. simpl. auto. }
  assert (Le : lookup_ino_path ioc_ino_lookup e
               = (fst (ioc_ino_lookup (ref_tree e) (dir_id e)), e)).
  { destruct (lookup_ino_path_ret_path ioc_ino_lookup e)
      as [Z0|(_ & E & _)]; trivial.
    rewrite (lookup_ino_path_ret ioc_ino_lookup e Pe) in Z0. lia. }
  unfold list_subvols. rewrite B. simpl.
  destruct (fill_paths_first ioc_ino_lookup fuel root)
    as [T|(root' & E & ER)].
  { apply fill_paths_first_enough in T; [contradiction | lia]. }
  rewrite fill_list_all in E, ER.
  2,3: intros x Hx; rewrite EL in Hx; apply in_app_or in Hx;
       destruct Hx as [Hx|[<-|[]]];
       [ rewrite lookup_ino_path_ret;
         [ now apply OKs
         | rewrite Forall_forall in P; apply P; rewrite EL;
           apply in_or_app; auto ]
       | rewrite Le; simpl; lia ].
  rewrite E. simpl.
  rewrite EL, map_app in ER. simpl in ER. rewrite Le in ER. simpl in ER.
  destruct (rb_last root') as [n|] eqn:RL.
  - destruct (rb_last_some _ _ RL) as (_ & _ & Bn).
    rewrite ER in Bn. apply app_inj_tail in Bn. destruct Bn as (_ & En).
    destruct fuel as [|[|fuel]]; try lia.
    + rewrite <- length_elements, EL, length_app in L. simpl in L. lia.
    + simpl. rewrite En. unfold resolve_root. simpl. rewrite Pe.
      reflexivity.
  - apply rightmost_none in RL. subst root'. simpl in ER.
    destruct (map _ pre); discriminate.
Qed.

Lemma list_subvols_positive_lookup_witness :
  list_subvols linux_rb_insert_color (enumerator 4096 scenario_records)
    lookup_positive 10 = Segv.
Proof.
  apply (list_subvols_positive_lookup linux_rb_insert_color
           (enumerator 4096 scenario_records) lookup_positive 10 0
           scenario_built
           [ new_root_info 257 256 256 "nested" 6;
             new_root_info 256 5 256 "snap1" 5 ]
           (new_root_info 5 5 0 "toplevel" 8)).
  - exact linux_keeps_order.
  - vm_compute. reflexivity.
  - vm_compute. lia.
  - vm_compute. reflexivity.
  - intros x _. simpl. lia.
  - simpl. lia.
Defined.

(** X20.  The stitch phase on a well-formed forest.  In an ordered index
    in which every record starts a chain of resolved records that ends (at
    a record that refers to itself, or to a subvolume without a record),
    the stitch phase prints one line per record, from the record with the
    smallest key to the one with the largest, and the line of a record
    has its [root_id], the [ref_tree] the chain ends with, and the paths
    of the chain joined by [/]. *)
Theorem stitch_prints_every_chain (bound fuel : nat) (rl : rb_tree) :
  rb_ordered rl ->
  (forall e, In e (elements rl) -> exists line, chain_line bound rl e line) ->
  (rb_count rl + bound + rb_count rl <= fuel)%nat ->
  exists out,
    stitch fuel rl (rb_last rl) = Ok out
    /\ Forall2 (chain_line bound rl) (rev (elements rl)) out.
Proof.
  intros S A F.
  assert (L : forall f n,
             incl (upto n) (elements rl) ->
             (List.length (upto n) + bound + rb_count rl <= f)%nat ->
             exists out, stitch f rl n = Ok out
                         /\ Forall2 (chain_line bound rl) (rev (upto n)) out).
  { induction f as [|f IH]; intros [n|] I Hf; simpl.
    - unfold upto in Hf. rewrite length_app in Hf. simpl in Hf. lia.
    - exists []. split; [reflexivity | constructor].
    - assert (He : In (ptr_entry n) (elements rl)).
      { apply I. simpl. apply in_or_app. simpl. auto. }
      destruct (A _ He) as (line & l & ps & C & P & B & ->).
      unfold resolve_root.
      rewrite (resolve_root_loop_chain rl S l ps f None (ptr_entry n) C P).
      2:{ unfold upto in Hf. rewrite length_app in Hf. simpl in *. lia. }
      simpl.
      destruct (IH (rb_prev n)) as (out & -> & R).
      { rewrite upto_rb_prev. intros x Hx. apply I. simpl.
        apply in_or_app. auto. }
      { rewrite upto_rb_prev. unfold upto in Hf. rewrite length_app in Hf.
        simpl in Hf. lia. }
      simpl. eexists. split; [reflexivity|].
      rewrite rev_app_distr. simpl. constructor.
      + exists l, ps. auto.
      + now rewrite upto_rb_prev in R.
    - exists []. split; [reflexivity | constructor]. }
  destruct (L fuel (rb_last rl)) as (out & E & R).
  - rewrite upto_rb_last. apply incl_refl.
  - rewrite upto_rb_last, length_elements. lia.
  - exists out. split; trivial. now rewrite upto_rb_last in R.
Qed.

Lemma scenario_chain_lines :
  forall e, In e (elements scenario_index) ->
            exists line, chain_line 3 scenario_index e line.
Proof.
  intros e [<-|[<-|[<-|[]]]]; eexists.
  - exists [rec_snap1; rec_toplevel],
      ["nested"%string; "snap1"%string; "toplevel"%string].
    repeat split; try discriminate; try (repeat constructor); simpl; auto.
  - exists [rec_toplevel], ["snap1"%string; "toplevel"%string].
    repeat split; try discriminate; try (repeat constructor); simpl; auto.
  - exists [], ["toplevel"%string].
    repeat split; try (repeat constructor); simpl; auto.
Qed.

Lemma stitch_prints_every_chain_witness :
  exists out,
    stitch 9 scenario_index (rb_last scenario_index) = Ok out
    /\ Forall2 (chain_line 3 scenario_index) (rev (elements scenario_index))
         out.
Proof.
  apply (stitch_prints_every_chain 3 9 scenario_index).
  - exact scenario_index_ordered.
  - exact scenario_chain_lines.
  - vm_compute. lia.
Defined.

(** ** The buffers of [resolve_root] *)

Section Mem_buffers.

Variable malloc : Mem.heap -> Mem.addr.
Hypothesis malloc_fresh : Mem.fresh malloc.
Variable h0 : Mem.heap.

(** The heap holds what [h0] held, the buffer of the first [malloc], which
    no pointer is kept to, and the buffer [b] of [full_path]. *)
Let owns (h : Mem.heap) (b : Mem.addr) : Prop :=
  (forall x, Mem.load h x <> None <->
             Mem.load h0 x <> None \/ x = malloc h0 \/ x = b)
  /\ Mem.load h (malloc h0) = Some EmptyString
  /\ Mem.load h0 b = None
  /\ b <> malloc h0.

Opaque Mem.free Mem.store.

Lemma mem_prepend_first (s : string) (a : Mem.addr) (h1 : Mem.heap) :
  Mem.prepend malloc h0 s None = Some (a, h1) -> owns h1 a.
Proof.
  unfold Mem.prepend, Mem.strdup, Mem.alloc. intros [= <- <-].
  pose proof (malloc_fresh h0) as F0.
  pose proof (malloc_fresh (Mem.store h0 (malloc h0) EmptyString)) as F1.
  remember (malloc (Mem.store h0 (malloc h0) EmptyString)) as a eqn:Ea.
  clear Ea. rewrite mem_load_store in F1.
  destruct (Nat.eqb_spec a (malloc h0)) as [|Na]; [discriminate|].
  repeat split; trivial.
  - rewrite !mem_load_store.
    destruct (Nat.eqb_spec x a); [auto|].
    destruct (Nat.eqb_spec x (malloc h0)); auto.
  - rewrite !mem_load_store. intros [H|[->| ->]].
    + destruct (Nat.eqb_spec x a); [discriminate|].
      destruct (Nat.eqb_spec x (malloc h0)); [discriminate | trivial].
    + destruct (Nat.eqb_spec (malloc h0) a); [discriminate|].
      rewrite Nat.eqb_refl. discriminate.
    + rewrite Nat.eqb_refl. discriminate.
  - rewrite !mem_load_store.
    destruct (Nat.eqb_spec (malloc h0) a); [congruence|].
    now rewrite Nat.eqb_refl.
Qed.

Lemma mem_prepend_later (h : Mem.heap) (b : Mem.addr) (s : string)
      (a : Mem.addr) (h1 : Mem.heap) :
  owns h b ->
  Mem.prepend malloc h s (Some b) = Some (a, h1) -> owns h1 a.
Proof.
  intros (A & T & B0 & Nb) H. unfold Mem.prepend, Mem.alloc in H.
  pose proof (malloc_fresh h) as F.
  remember (malloc h) as tmp eqn:Et. clear Et.
  assert (Nt : Mem.load h0 tmp = None /\ tmp <> malloc h0 /\ tmp <> b).
  { repeat split.
    - destruct (Mem.load h0 tmp) eqn:E; trivial.
      exfalso. assert (X : Mem.load h tmp <> None) by (apply A; left; congruence).
      contradiction.
    - intros ->. congruence.
    - intros ->. assert (X : Mem.load h b <> None) by (apply A; auto).
      contradiction. }
  destruct Nt as (T0 & Nt0 & Ntb).
  destruct (Mem.load (Mem.store h tmp EmptyString) b) as [sb|];
    [|discriminate].
  injection H as <- <-. repeat split; trivial.
  - rewrite mem_load_free, !mem_load_store.
    destruct (Nat.eqb_spec x b) as [->|]; [congruence|].
    destruct (Nat.eqb_spec x tmp) as [->|]; [auto|].
    intros H. apply A in H. tauto.
  - rewrite mem_load_free, !mem_load_store. intros [H|[->| ->]].
    + destruct (Nat.eqb_spec x b) as [->|]; [contradiction|].
      destruct (Nat.eqb_spec x tmp); [discriminate|]. apply A. auto.
    + destruct (Nat.eqb_spec (malloc h0) b); [congruence|].
      destruct (Nat.eqb_spec (malloc h0) tmp); [congruence|]. congruence.
    + destruct (Nat.eqb_spec tmp b); [contradiction|].
      rewrite Nat.eqb_refl. discriminate.
  - rewrite mem_load_free, !mem_load_store.
    destruct (Nat.eqb_spec (malloc h0) b); [congruence|].
    destruct (Nat.eqb_spec (malloc h0) tmp); congruence.
Qed.

Lemma mem_resolve_root_loop_owns (fuel : nat) (rl : rb_tree_of Mem.addr) :
  forall found fp h top a h',
  match fp with
  | Some b => owns h b
  | None => h = h0
  end ->
  Mem.resolve_root_loop malloc fuel rl found fp h = Ok (top, a, h') ->
  owns h' a.
Proof.
  induction fuel as [|fuel IH]; intros found fp h top a h' I H;
    simpl in H; [discriminate|].
  destruct (path found) as [p|]; [|discriminate H].
  destruct (Mem.load h p) as [s|]; [|discriminate H].
  destruct (Mem.prepend malloc h s fp) as [(a1, h1)|] eqn:PP;
    [|discriminate H].
  assert (O1 : owns h1 a1).
  { destruct fp as [b|].
    - eapply mem_prepend_later; eauto.
    - subst h. eapply mem_prepend_first; eauto. }
  destruct (ref_tree found =? root_id found).
  - now injection H as _ <- <-.
  - destruct (tree_search fuel rl (ref_tree found)) as [[found'|]| | |];
      simpl in H; try discriminate H.
    + eapply (IH found' (Some a1)); eauto.
    + now injection H as _ <- <-.
Qed.

Lemma mem_resolve_root_buffers (fuel : nat) (rl : rb_tree_of Mem.addr)
      (ri : root_info_of Mem.addr) (h' : Mem.heap) (line : report) :
  Mem.resolve_root malloc fuel rl ri h0 = Ok (line, h') ->
  (forall a, Mem.load h' a <> None <->
             Mem.load h0 a <> None \/ a = malloc h0)
  /\ Mem.load h0 (malloc h0) = None
  /\ Mem.load h' (malloc h0) = Some EmptyString.
Proof.
  intros H. unfold Mem.resolve_root in H.
  destruct (Mem.resolve_root_loop malloc fuel rl ri None h0)
    as [[[top a] h1]| | |] eqn:L; simpl in H; try discriminate.
  destruct (Mem.load h1 a) as [s|]; [|discriminate].
  injection H as _ <-.
  destruct (mem_resolve_root_loop_owns fuel rl ri None h0 top a h1 eq_refl L)
    as (A & T & B0 & Nb).
  repeat split; trivial.
  - rewrite mem_load_free. destruct (Nat.eqb_spec a0 a) as [->|N];
      [congruence|]. intros H. apply A in H. tauto.
  - rewrite mem_load_free. intros [H| -> ].
    + destruct (Nat.eqb_spec a0 a) as [->|N]; [contradiction|].
      apply A. auto.
    + destruct (Nat.eqb_spec (malloc h0) a); [congruence|]. congruence.
  - rewrite mem_load_free.
    destruct (Nat.eqb_spec (malloc h0) a); [congruence | trivial].
Qed.

End Mem_buffers.

Transparent Mem.free Mem.store.

(** X21.  [resolve_root] leaks one buffer per call.  Whatever unused
    addresses [malloc] picks, after a call that returns the allocated
    buffers are those allocated before the call and one more: the buffer
    of the first [malloc] of the loop, which the first turn does not use
    ([full_path] being [NULL], it takes a [strdup] instead) and which is
    never freed.  Every other buffer the call allocates it frees. *)
Theorem mem_resolve_root_leaks_one_buffer
        (malloc : Mem.heap -> Mem.addr) (fuel : nat)
        (rl : rb_tree_of Mem.addr) (ri : root_info_of Mem.addr)
        (h h' : Mem.heap) (line : report) :
  Mem.fresh malloc ->
  Mem.resolve_root malloc fuel rl ri h = Ok (line, h') ->
  (forall a, Mem.load h' a <> None <->
             Mem.load h a <> None \/ a = malloc h)
  /\ Mem.load h (malloc h) = None.
Proof.
  intros F H.
  destruct (mem_resolve_root_buffers malloc F h fuel rl ri h' line H)
    as (A & B & _).
  now split.
Qed.

Lemma mem_resolve_root_leaks_one_buffer_witness :
  exists h',
    Mem.resolve_root Mem.bump 5 Mem.scenario_index
      (mk_root_info 257 256 256 (Some 2%nat) "nested") Mem.scenario_heap
    = Ok (mk_report 257 5 "toplevel/snap1/nested", h')
    /\ (forall a, Mem.load h' a <> None <->
                  Mem.load Mem.scenario_heap a <> None
                  \/ a = Mem.bump Mem.scenario_heap)
    /\ Mem.load Mem.scenario_heap (Mem.bump Mem.scenario_heap) = None.
Proof.
  eexists. split; [vm_compute; reflexivity|].
  apply (mem_resolve_root_leaks_one_buffer Mem.bump 5 Mem.scenario_index
           (mk_root_info 257 256 256 (Some 2%nat) "nested")
           Mem.scenario_heap _
           (mk_report 257 5 "toplevel/snap1/nested")).
  - exact mem_bump_fresh.
  - vm_compute. reflexivity.
Defined.

Lemma bump_far_fresh : Mem.fresh bump_far.
Proof.
  intros h. destruct (Mem.load h (bump_far h)) eqn:L; trivial.
  assert (B : Mem.load h (bump_far h) <> None) by congruence.
  apply mem_load_bound in B. unfold bump_far, Mem.bump in B. lia.
Qed.

(** X22.  The line [resolve_root] prints does not depend on where its
    buffers lie: with any two allocators that return unused addresses, two
    calls on the same index and heap that return print the same line, the
    one the functional model gives for the index read through the heap. *)
Theorem mem_resolve_root_any_allocator
        (malloc malloc' : Mem.heap -> Mem.addr) (fuel : nat)
        (rl : rb_tree_of Mem.addr) (ri : root_info_of Mem.addr)
        (h h1 h2 : Mem.heap) (line1 line2 : report) :
  Mem.fresh malloc -> Mem.fresh malloc' ->
  Mem.paths_allocated h rl ->
  Mem.resolve_root malloc fuel rl ri h = Ok (line1, h1) ->
  Mem.resolve_root malloc' fuel rl ri h = Ok (line2, h2) ->
  line1 = line2
  /\ resolve_root fuel (map_tree (Mem.deref h) rl) (Mem.deref h ri)
     = Ok line1.
Proof.
  intros F F' A H1 H2.
  pose proof (mem_resolve_root_refines malloc F fuel rl ri h h1 line1 A H1)
    as R1.
  pose proof (mem_resolve_root_refines malloc' F' fuel rl ri h h2 line2 A H2)
    as R2.
  split; [congruence | exact R1].
Qed.

Lemma mem_resolve_root_any_allocator_witness :
  mk_report 257 5 "toplevel/snap1/nested"
  = mk_report 257 5 "toplevel/snap1/nested"
  /\ resolve_root 5 (map_tree (Mem.deref Mem.scenario_heap) Mem.scenario_index)
       (Mem.deref Mem.scenario_heap
          (mk_root_info 257 256 256 (Some 2%nat) "nested"))
     = Ok (mk_report 257 5 "toplevel/snap1/nested").
Proof.
  assert (E1 : exists h1,
             Mem.resolve_root Mem.bump 5 Mem.scenario_index
               (mk_root_info 257 256 256 (Some 2%nat) "nested")
               Mem.scenario_heap
             = Ok (mk_report 257 5 "toplevel/snap1/nested", h1)).
  { eexists. vm_compute. reflexivity. }
  assert (E2 : exists h2,
             Mem.resolve_root bump_far 5 Mem.scenario_index
               (mk_root_info 257 256 256 (Some 2%nat) "nested")
               Mem.scenario_heap
             = Ok (mk_report 257 5 "toplevel/snap1/nested", h2)).
  { eexists. vm_compute. reflexivity. }
  destruct E1 as (h1 & E1). destruct E2 as (h2 & E2).
  exact (mem_resolve_root_any_allocator Mem.bump bump_far 5
           Mem.scenario_index
           (mk_root_info 257 256 256 (Some 2%nat) "nested")
           Mem.scenario_heap h1 h2 _ _
           mem_bump_fresh bump_far_fresh mem_scenario_allocated E1 E2).
Defined.
